(** * wmi.hxx: the value converter, the property object and the batch iterator

    A shallow embedding of [include/wmi/wmi.hxx].  The header is a thin
    client of three COM interfaces; what it adds, and what is verified here,
    is
    - the conversion of a [VARIANT] into an optional C++ value
      ([ConvertBstrToString] and the three [ConvertVariant] templates),
    - [Object::GetProperty], and
    - [QueryResult::Iterator], the batching input iterator over an
      [IEnumWbemClassObject], with [QueryResult::begin] and
      [QueryResult::end].

    Conventions.  A C++ function that can throw returns an [outcome]; a
    member function that talks to the remote enumerator runs in the monad
    [M] over the heap of enumerators, because [CComPtr] copies alias one
    COM object.  Undefined behaviour (an index past the end of a
    [std::vector]) is the [Stuck] result of that monad, never a value.
    The diagnostic lines written to [std::cerr] are not modelled. *)

From Stdlib Require Import ZArith DecimalString DecimalN DecimalPos.
From stdpp Require Import base option list strings gmap fin_maps.

Open Scope Z_scope.

(** ** Windows base types *)

(** [HRESULT] is a signed 32-bit integer; the SDK writes its constants as
    unsigned hexadecimal numbers. *)
Definition HRESULT := Z.

Definition HRESULT_of_hex (u : Z) : HRESULT :=
  if decide (u < 2 ^ 31) then u else u - 2 ^ 32.

(** [#define FAILED(hr) (((HRESULT)(hr)) < 0)] *)
Definition FAILED (hr : HRESULT) : bool := bool_decide (hr < 0).
Definition SUCCEEDED (hr : HRESULT) : bool := bool_decide (0 <= hr).

Definition S_OK : HRESULT := 0.
Definition E_INVALIDARG : HRESULT := Eval cbv in HRESULT_of_hex 0x80070057.
Definition DISP_E_TYPEMISMATCH : HRESULT := Eval cbv in HRESULT_of_hex 0x80020005.
Definition WBEM_S_NO_ERROR : HRESULT := 0.
Definition WBEM_S_FALSE : HRESULT := 1.
Definition WBEM_E_NOT_FOUND : HRESULT := Eval cbv in HRESULT_of_hex 0x80041002.
Definition WBEM_E_TRANSPORT_FAILURE : HRESULT := Eval cbv in HRESULT_of_hex 0x80041015.
Definition WBEM_INFINITE : Z := Eval cbv in HRESULT_of_hex 0xFFFFFFFF.

(** [VARTYPE] is an unsigned short; [VT_ARRAY] is a flag or-ed onto the
    element type. *)
Definition VARTYPE := Z.
Definition VT_EMPTY : VARTYPE := 0.
Definition VT_NULL : VARTYPE := 1.
Definition VT_I4 : VARTYPE := 3.
Definition VT_BSTR : VARTYPE := 8.
Definition VT_BOOL : VARTYPE := 11.
Definition VT_ARRAY : VARTYPE := 0x2000.

(** A [BSTR] is a pointer to a counted wide string; the pointer may be null
    ([None]).  The pointee is its sequence of UTF-16 code units. *)
Definition wchar_t := N.
Definition BSTR := option (list wchar_t).

(** The part of [SAFEARRAY] that [CComSafeArray<BSTR>] looks at: the element
    type recorded in the descriptor and the data.  The arrays WMI returns
    are one-dimensional and zero-based. *)
Record SAFEARRAY := {
  sa_vartype : VARTYPE;
  pvData : list BSTR
}.

(** [tagVARIANT]: the discriminant [vt] and the members of the union the
    header reads.  [CComVariant] and [variant_t] both derive from it without
    adding a field. *)
Record VARIANT := {
  vt : VARTYPE;
  bstrVal : BSTR;
  parray : option SAFEARRAY;
  lVal : Z
}.
Definition CComVariant := VARIANT.
Definition variant_t := VARIANT.

(** ** C++ exceptions *)

(** The three classes the handlers of [ConvertVariant] tell apart:
    [_com_error], anything derived from [std::exception], and the rest
    (ATL's [CAtlException] is one of the rest). *)
Inductive exception :=
  | com_error (hr : HRESULT)
  | std_exception (what : string)
  | CAtlException (hr : HRESULT)
  | unknown_exception.

Inductive outcome (A : Type) :=
  | Return (a : A)
  | Throw (e : exception).
Arguments Return {A} a.
Arguments Throw {A} e.

#[export] Instance outcome_ret : MRet outcome := @Return.
#[export] Instance outcome_bind : MBind outcome := fun A B f m =>
  match m with
  | Return a => f a
  | Throw e => Throw e
  end.

(** [try { body } catch ... ]: the handler sees whatever [body] threw. *)
Definition try_catch {A} (body : outcome A) (handler : exception → outcome A)
  : outcome A :=
  match body with
  | Return a => Return a
  | Throw e => handler e
  end.

Definition returns {A} (o : outcome A) : Prop := ∃ a, o = Return a.

(** ** The value converter *)

Section Converter.
(** [_com_util::ConvertBSTRToString] followed by the [std::string]
    constructor: the decoding of a non-null wide string. *)
Variable ConvertBSTRToString : list wchar_t → string.

(** [ConvertBstrToString(const CComVariant&)] *)
Definition ConvertBstrToString (variant : CComVariant) : option string :=
  if bool_decide (vt variant = VT_BSTR) then
    match bstrVal variant with
    | Some s => Some (ConvertBSTRToString s)
    | None => None
    end
  else None.

(** The primary template [ConvertVariant<T>].  [cast] stands for
    [static_cast<T>(variant_t(variant))], that is the extraction operator
    of [_variant_t] for [T], which throws when the value cannot be
    changed to [T]. *)
Definition ConvertVariant_generic {T} (cast : variant_t → outcome T)
    (variant : CComVariant) : outcome (option T) :=
  try_catch
    (x ← cast variant; Return (Some x))
    (fun e =>
       match e with
       | com_error _ => Return None
       | std_exception _ => Return None
       | _ => Return None
       end).

(** [ConvertVariant<std::string>] *)
Definition ConvertVariant_string (variant : CComVariant) : outcome (option string) :=
  Return (ConvertBstrToString variant).

(** [CComSafeArray<BSTR>::Attach]: refuses a null descriptor and a
    descriptor of another element type by throwing. *)
Definition Attach (psaSrc : option SAFEARRAY) : outcome SAFEARRAY :=
  match psaSrc with
  | None => Throw (CAtlException E_INVALIDARG)
  | Some sa =>
      if bool_decide (sa_vartype sa = VT_BSTR) then Return sa
      else Throw (CAtlException E_INVALIDARG)
  end.

Definition GetCount (safe_array : SAFEARRAY) : nat := length (pvData safe_array).

(** [CComSafeArray<BSTR>::GetAt] is bounds-checked; for the zero-based
    arrays of this record the bounds are those of the data.  [GetAt_lb]
    below is the check with a lower bound. *)
Definition GetAt (safe_array : SAFEARRAY) (i : nat) : outcome BSTR :=
  match pvData safe_array !! i with
  | Some bstr => Return bstr
  | None => Throw (CAtlException E_INVALIDARG)
  end.

(** The [for] loop of [ConvertVariant<std::vector<std::string>>]:
    [todo] iterations are left, [i] is the loop variable. *)
Fixpoint collect_strings (safe_array : SAFEARRAY) (todo i : nat)
    (result : list string) : outcome (list string) :=
  match todo with
  | O => Return result
  | S todo' =>
      bstr ← GetAt safe_array i;
      collect_strings safe_array todo' (S i)
        match bstr with
        | Some s => result ++ [ConvertBSTRToString s]
        | None => result
        end
  end.

(** [ConvertVariant<std::vector<std::string>>] *)
Definition ConvertVariant_vector_string (variant : CComVariant)
    : outcome (option (list string)) :=
  if bool_decide (vt variant ≠ Z.lor VT_ARRAY VT_BSTR) then Return None
  else
    match Attach (parray variant) with
    | Throw _ => Return None
    | Return safe_array =>
        let count := GetCount safe_array in
        result ← collect_strings safe_array count 0 [];
        Return (Some result)
    end.

(** What the specification promises for an array of strings: the non-null
    elements, decoded, in the order of the array. *)
Definition decoded_non_null (elements : list BSTR) : list string :=
  ConvertBSTRToString <$> omap id elements.

(** *** Target types *)

(** The [T] of [ConvertVariant<T>] and [GetProperty<T>]: the native
    variant, the two specialised types, or any other type together with
    its extraction operator. *)
Inductive target :=
  | T_variant_t
  | T_string
  | T_vector_string
  | T_other (T : Type) (cast : variant_t → outcome T).

Definition cpp_type (t : target) : Type :=
  match t with
  | T_variant_t => variant_t
  | T_string => string
  | T_vector_string => list string
  | T_other T _ => T
  end.

(** Overload resolution of [ConvertVariant<T>].  For [variant_t] the
    primary template applies and its cast is a copy. *)
Definition ConvertVariant (t : target) (variant : CComVariant)
    : outcome (option (cpp_type t)) :=
  match t with
  | T_variant_t => ConvertVariant_generic (fun v => Return v) variant
  | T_string => ConvertVariant_string variant
  | T_vector_string => ConvertVariant_vector_string variant
  | T_other T cast => ConvertVariant_generic cast variant
  end.
End Converter.

(** ** The property object *)

(** [IWbemClassObject], seen through the one method the header calls:
    [Get(name, 0, &variant, nullptr, nullptr)] gives a status and fills the
    variant.  The remote record is never written through this wrapper, so
    the pointer is modelled by the record it points to. *)
Record IWbemClassObject := {
  Get : string → HRESULT * CComVariant
}.

(** [std::shared_ptr<const Interface>]: the session is immutable after its
    construction and only kept alive by its holders. *)
Definition InterfacePtr := nat.

Module Object.
Record t := Build {
  iface_ : InterfacePtr;
  object_ : IWbemClassObject
}.

Section GetProperty.
Variable ConvertBSTRToString : list wchar_t → string.

(** [Object::GetProperty<T>(name)] *)
Definition GetProperty (T : target) (self : t) (name : string)
    : outcome (option (cpp_type T)) :=
  let '(result, variant) := Get (object_ self) name in
  if FAILED result then Return None
  else
    match T as T' return outcome (option (cpp_type T')) with
    | T_variant_t => Return (Some variant)
    | T' => ConvertVariant ConvertBSTRToString T' variant
    end.
End GetProperty.
End Object.

(** ** The remote enumerator *)

(** [IEnumWbemClassObject], seen through the two methods the header calls.
    [E] is the state of the remote cursor; [Next lTimeout uCount] gives the
    status and the objects it stored ([returned_count] is their number). *)
Class IEnumWbemClassObject (E : Type) := {
  Reset : E → HRESULT * E;
  Next : Z → nat → E → HRESULT * list IWbemClassObject * E
}.

(** A [CComPtr<IEnumWbemClassObject>] is null or the address of a COM
    object; copies of the pointer share the object. *)
Definition CComPtr := option nat.

(** Why a run has no result: the code read a vector out of range, followed
    a pointer to no object, or the loop bound of the model was reached. *)
Inductive stuck :=
  | out_of_range
  | dangling_pointer
  | out_of_fuel.

Inductive run (A : Type) :=
  | Done (a : A)
  | Stuck (why : stuck).
Arguments Done {A} a.
Arguments Stuck {A} why.

(** Computations over the heap of enumerators. *)
Definition M (E A : Type) : Type := gmap nat E → run (A * gmap nat E).

#[export] Instance M_ret E : MRet (M E) := fun A a heap => Done (a, heap).
#[export] Instance M_bind E : MBind (M E) := fun A B f m heap =>
  match m heap with
  | Done (a, heap') => f a heap'
  | Stuck why => Stuck why
  end.

Definition lift_run {E A} (r : run A) : M E A := fun heap =>
  match r with
  | Done a => Done (a, heap)
  | Stuck why => Stuck why
  end.

Section Calls.
Context {E : Type} `{!IEnumWbemClassObject E}.

(** [enumerator->Reset()] *)
Definition call_Reset (p : nat) : M E HRESULT := fun heap =>
  match heap !! p with
  | Some e => let '(hr, e') := Reset e in Done (hr, <[p := e']> heap)
  | None => Stuck dangling_pointer
  end.

(** [enumerator->Next(lTimeout, uCount, objects, &returned_count)] *)
Definition call_Next (p : nat) (lTimeout : Z) (uCount : nat)
    : M E (HRESULT * list IWbemClassObject) := fun heap =>
  match heap !! p with
  | Some e =>
      let '(hr, objects, e') := Next lTimeout uCount e in
      Done ((hr, objects), <[p := e']> heap)
  | None => Stuck dangling_pointer
  end.
End Calls.

(** ** The query result and its iterator *)

Module QueryResult.

Module Iterator.
Record t := Build {
  iface_ : InterfacePtr;
  enumerator_ : CComPtr;
  batch_ : list Object.t;
  current_index_ : nat;
  is_end_ : bool
}.

Section Members.
Context {E : Type} `{!IEnumWbemClassObject E}.
(** [static constexpr ULONG BATCH_SIZE = 10] in the header; a parameter
    here so that statements can range over it. *)
Variable BATCH_SIZE : nat.

(** [void FetchNextBatch()].  The objects [Next] stored are a list here;
    that they fit the array [objects[BATCH_SIZE]] is the hypothesis
    [respects_count] of the statements that need it. *)
Definition FetchNextBatch (self : t) : M E t :=
  let self := Build (iface_ self) (enumerator_ self) [] 0 (is_end_ self) in
  match enumerator_ self with
  | None =>
      mret (Build (iface_ self) (enumerator_ self) (batch_ self)
                  (current_index_ self) true)
  | Some p =>
      '(result, objects) ← call_Next p WBEM_INFINITE BATCH_SIZE;
      let returned_count := length objects in
      if FAILED result || bool_decide (returned_count = 0%nat) then
        mret (Build (iface_ self) (enumerator_ self) (batch_ self)
                    (current_index_ self) true)
      else
        mret (Build (iface_ self) (enumerator_ self)
                    (batch_ self ++ (Object.Build (iface_ self) <$> objects))
                    (current_index_ self) (is_end_ self))
  end.

(** [Iterator(iface, enumerator, is_end = false)] *)
Definition new (iface : InterfacePtr) (enumerator : CComPtr) (is_end : bool)
    : M E t :=
  let self := Build iface enumerator [] 0 is_end in
  if negb (is_end_ self) && bool_decide (is_Some (enumerator_ self))
  then FetchNextBatch self
  else mret self.

(** The dereference operator: [batch_[current_index_]], unchecked
    in the source. *)
Definition operator_deref (self : t) : run Object.t :=
  match batch_ self !! current_index_ self with
  | Some object => Done object
  | None => Stuck out_of_range
  end.

(** [Iterator& operator++()] *)
Definition operator_inc (self : t) : M E t :=
  if is_end_ self then mret self
  else
    let self := Build (iface_ self) (enumerator_ self) (batch_ self)
                      (S (current_index_ self)) (is_end_ self) in
    if bool_decide (length (batch_ self) ≤ current_index_ self)%nat
    then FetchNextBatch self
    else mret self.

(** [Iterator operator++(int)]: the copy made before the advance is
    returned, the advanced iterator is the second component. *)
Definition operator_inc_post (self : t) : M E (t * t) :=
  let temp := self in
  self' ← operator_inc self;
  mret (temp, self').
End Members.

(** [bool operator==(const Iterator&) const] *)
Definition operator_eq (self other : t) : bool :=
  bool_decide (is_end_ self = is_end_ other).

(** [bool operator!=(const Iterator&) const] *)
Definition operator_ne (self other : t) : bool := negb (operator_eq self other).
End Iterator.

Record t := Build {
  iface_ : InterfacePtr;
  enumerator_ : CComPtr
}.

Section Members.
Context {E : Type} `{!IEnumWbemClassObject E}.
Variable BATCH_SIZE : nat.

(** [Iterator begin() const] *)
Definition begin (self : t) : M E Iterator.t :=
  _ ← match enumerator_ self with
      | Some p => call_Reset p
      | None => mret S_OK
      end;
  Iterator.new BATCH_SIZE (iface_ self) (enumerator_ self) false.

(** [Iterator end() const] *)
Definition end_ (self : t) : M E Iterator.t :=
  Iterator.new BATCH_SIZE (iface_ self) None true.

(** The loop a range-based [for] expands to: while [it != end], the body
    sees the dereferenced iterator and the iterator is advanced.  The
    objects the body sees are collected in order; [fuel] bounds the number
    of tests of the loop condition. *)
Fixpoint loop (fuel : nat) (it end_it : Iterator.t) : M E (list Object.t) :=
  match fuel with
  | O => lift_run (Stuck out_of_fuel)
  | S fuel' =>
      if Iterator.operator_ne it end_it then
        object ← lift_run (Iterator.operator_deref it);
        it' ← Iterator.operator_inc BATCH_SIZE it;
        rest ← loop fuel' it' end_it;
        mret (object :: rest)
      else mret []
  end.

(** [for (const auto& object : result) ...] *)
Definition range_for (fuel : nat) (self : t) : M E (list Object.t) :=
  it ← begin self;
  end_it ← end_ self;
  loop fuel it end_it.

(** [n] prefix increments in a row. *)
Fixpoint advance (n : nat) (it : Iterator.t) : M E Iterator.t :=
  match n with
  | O => mret it
  | S n' => it' ← Iterator.operator_inc BATCH_SIZE it; advance n' it'
  end.
End Members.
End QueryResult.

Definition BATCH_SIZE : nat := 10.

(** ** A remote enumerator over a list of records *)

(** The result set of a query as the remote side holds it: the records in
    remote order, the position of the cursor, and, to model a connection
    that breaks, the number of records after which every fetch fails. *)
Record ListEnumerator := {
  records : list IWbemClassObject;
  position : nat;
  fault_after : option nat
}.

(** The records the remote side is able to deliver. *)
Definition available (e : ListEnumerator) : list IWbemClassObject :=
  match fault_after e with
  | Some f => take f (records e)
  | None => records e
  end.

Definition broken (e : ListEnumerator) : bool :=
  match fault_after e with
  | Some f => bool_decide (f ≤ position e)%nat
  | None => false
  end.

(** A cursor that honours [Reset]; [ForwardOnly_enum] and
    [ListEnumerator_with_Reset] below are cursors with another [Reset].
    [Reset] moves the cursor to the first record.  [Next] stores at most
    [uCount] records, answers [WBEM_S_NO_ERROR] when it stored [uCount] of
    them and [WBEM_S_FALSE] when fewer were left, and fails without storing
    anything once the connection is broken. *)
#[export] Instance ListEnumerator_enum : IEnumWbemClassObject ListEnumerator := {
  Reset e := (WBEM_S_NO_ERROR, Build_ListEnumerator (records e) 0 (fault_after e));
  Next lTimeout uCount e :=
    if broken e then (WBEM_E_TRANSPORT_FAILURE, [], e)
    else
      let objects := take uCount (drop (position e) (available e)) in
      (if bool_decide (length objects = uCount) then WBEM_S_NO_ERROR else WBEM_S_FALSE,
       objects,
       Build_ListEnumerator (records e) (position e + length objects) (fault_after e))
}.

Definition healthy (recs : list IWbemClassObject) (pos : nat) : ListEnumerator :=
  Build_ListEnumerator recs pos None.

(** ** Iterator states *)

(** The state both exits of [FetchNextBatch] that set the flag leave behind:
    the batch cleared, the index zero, the flag set. *)
Definition exhausted (it : QueryResult.Iterator.t) : QueryResult.Iterator.t :=
  QueryResult.Iterator.Build (QueryResult.Iterator.iface_ it)
    (QueryResult.Iterator.enumerator_ it) [] 0 true.

(** What a pass still has to yield: the rest of the batch in memory, then
    what the cursor has not delivered yet. *)
Definition remaining (it : QueryResult.Iterator.t) (e : ListEnumerator)
    : list Object.t :=
  if QueryResult.Iterator.is_end_ it then []
  else drop (QueryResult.Iterator.current_index_ it) (QueryResult.Iterator.batch_ it) ++
       (Object.Build (QueryResult.Iterator.iface_ it) <$>
          drop (position e) (available e)).

(** The invariant of the data model: the index is valid into the batch
    unless the end-of-sequence flag is set. *)
Definition well_indexed (it : QueryResult.Iterator.t) : Prop :=
  QueryResult.Iterator.is_end_ it = false →
  (QueryResult.Iterator.current_index_ it <
     length (QueryResult.Iterator.batch_ it))%nat.

(** An iterator bound to the cursor at [p] and the state of that cursor,
    before and after an operation. *)
Definition follows (p : nat) (it : QueryResult.Iterator.t) (e : ListEnumerator)
    (it' : QueryResult.Iterator.t) (e' : ListEnumerator) : Prop :=
  QueryResult.Iterator.enumerator_ it' = Some p ∧
  QueryResult.Iterator.iface_ it' = QueryResult.Iterator.iface_ it ∧
  records e' = records e ∧
  fault_after e' = fault_after e ∧
  well_indexed it'.

(** ** Scenarios *)

Section Scenarios.
Context {E : Type} `{!IEnumWbemClassObject E}.
Variable B : nat.

(** Two range-based [for] loops over one result, one after the other. *)
Definition two_passes (fuel : nat) (result : QueryResult.t)
    : M E (list Object.t * list Object.t) :=
  first ← QueryResult.range_for B fuel result;
  second ← QueryResult.range_for B fuel result;
  mret (first, second).

(** [begin()] called twice in succession, and only then the two iterators
    consumed, the first one first. *)
Definition begin_twice_then_iterate (fuel : nat) (result : QueryResult.t)
    : M E (list Object.t * list Object.t) :=
  it1 ← QueryResult.begin B result;
  it2 ← QueryResult.begin B result;
  end_it ← QueryResult.end_ B result;
  first ← QueryResult.loop B fuel it1 end_it;
  second ← QueryResult.loop B fuel it2 end_it;
  mret (first, second).
End Scenarios.

(** ** Test data *)

(** The narrow string of a wide string of Latin-1 code units. *)
Definition narrow (s : list wchar_t) : string :=
  String.string_of_list_ascii (Ascii.ascii_of_N <$> s).

Definition wide (s : string) : list wchar_t :=
  Ascii.N_of_ascii <$> String.list_ascii_of_string s.

Definition VARIANT_empty : VARIANT := Build_VARIANT VT_EMPTY None None 0.
Definition VARIANT_null : VARIANT := Build_VARIANT VT_NULL None None 0.
Definition VARIANT_bstr (s : string) : VARIANT :=
  Build_VARIANT VT_BSTR (Some (wide s)) None 0.
Definition VARIANT_null_bstr : VARIANT := Build_VARIANT VT_BSTR None None 0.
Definition VARIANT_i4 (n : Z) : VARIANT := Build_VARIANT VT_I4 None None n.
Definition VARIANT_bstr_array (elements : list (option string)) : VARIANT :=
  Build_VARIANT (Z.lor VT_ARRAY VT_BSTR) None
    (Some (Build_SAFEARRAY VT_BSTR (map (option_map wide) elements))) 0.
Definition VARIANT_i4_array_tagged_bstr : VARIANT :=
  Build_VARIANT (Z.lor VT_ARRAY VT_BSTR) None (Some (Build_SAFEARRAY VT_I4 [])) 0.

(** A record with the given properties; any other name is not found. *)
Definition record_of (properties : list (string * VARIANT)) : IWbemClassObject :=
  {| Get name :=
       match list_find (fun kv => kv.1 = name) properties with
       | Some (_, (_, v)) => (WBEM_S_NO_ERROR, v)
       | None => (WBEM_E_NOT_FOUND, VARIANT_empty)
       end |}.

Definition disk (id : string) : IWbemClassObject :=
  record_of [("DeviceID"%string, VARIANT_bstr id); ("DriveType"%string, VARIANT_i4 3)].

(** An extraction operator in the manner of [_variant_t::operator long]:
    it yields the integer member of an integer variant and fails with a
    type mismatch otherwise. *)
Definition cast_long (v : variant_t) : outcome Z :=
  if bool_decide (vt v = VT_I4) then Return (lVal v)
  else Throw (com_error DISP_E_TYPEMISMATCH).

(** Twelve records, two more than one batch. *)
Definition twelve_disks : list IWbemClassObject :=
  disk <$> ["A:"; "B:"; "C:"; "D:"; "E:"; "F:"; "G:"; "H:"; "I:"; "J:"; "K:"; "L:"]%string.

Definition heap_of (e : ListEnumerator) : gmap nat ListEnumerator := {[ 0%nat := e ]}.

Definition result_at_0 : QueryResult.t := QueryResult.Build 7%nat (Some 0%nat).
Definition result_null : QueryResult.t := QueryResult.Build 7%nat None.

(** The iterator [begin()] gives for a result of one record. *)
Definition active_iterator : QueryResult.Iterator.t :=
  QueryResult.Iterator.Build 7%nat (Some 0%nat) [Object.Build 7%nat (disk "C:")] 0%nat false.

(** An iterator of another result, bound to another cursor, in the middle
    of its batch. *)
Definition other_active_iterator : QueryResult.Iterator.t :=
  QueryResult.Iterator.Build 8%nat (Some 1%nat)
    [Object.Build 8%nat (disk "D:"); Object.Build 8%nat (disk "E:")] 1%nat false.

(** The end sentinel of [result_at_0]. *)
Definition end_sentinel : QueryResult.Iterator.t :=
  QueryResult.Iterator.Build 7%nat None [] 0%nat true.

(** A cursor over [twelve_disks] whose connection breaks after three
    records. *)
Definition breaks_after_three : ListEnumerator :=
  Build_ListEnumerator twelve_disks 0 (Some 3%nat).

(** ** Error messages *)

(** [std::to_string(unsigned)]: the decimal digits, no sign, no leading
    zero, ["0"] for zero. *)
Definition to_string (n : N) : string :=
  DecimalString.NilZero.string_of_uint (N.to_uint n).

(** The reading of a string of decimal digits; nothing else is a number. *)
Definition parse_unsigned (s : string) : option N :=
  N.of_uint <$> DecimalString.NilZero.uint_of_string s.

(** [static_cast<unsigned>(hr)] on a 32-bit [HRESULT]. *)
Definition static_cast_unsigned (hr : HRESULT) : N := Z.to_N (hr mod 2 ^ 32).

(** [FormatHResultError(operation, hr)] *)
Definition FormatHResultError (operation : string) (hr : HRESULT) : string :=
  (operation +:+ " (HRESULT: 0x" +:+ to_string (static_cast_unsigned hr) +:+ ")")%string.

(** [wmi::Exception] derives from [std::runtime_error] and adds nothing to
    it; it is thrown and caught as the [std::exception] with its message. *)
Definition Exception (message : string) : exception := std_exception message.

(** ** Calls into the COM runtime *)

Definition RPC_E_CHANGED_MODE : HRESULT := Eval cbv in HRESULT_of_hex 0x80010106.
Definition RPC_E_TOO_LATE : HRESULT := Eval cbv in HRESULT_of_hex 0x80010119.
Definition WBEM_E_INVALID_OPERATION : HRESULT := Eval cbv in HRESULT_of_hex 0x80041016.
Definition WBEM_E_INVALID_QUERY : HRESULT := Eval cbv in HRESULT_of_hex 0x80041017.
Definition WBEM_E_INVALID_NAMESPACE : HRESULT := Eval cbv in HRESULT_of_hex 0x8004100E.
Definition E_ACCESSDENIED : HRESULT := Eval cbv in HRESULT_of_hex 0x80070005.
Definition REGDB_E_CLASSNOTREG : HRESULT := Eval cbv in HRESULT_of_hex 0x80040154.
Definition S_FALSE : HRESULT := 1.
Definition COINIT_MULTITHREADED : Z := 0.
Definition COINIT_APARTMENTTHREADED : Z := 2.
Definition WBEM_FLAG_RETURN_IMMEDIATELY : Z := 0x10.
Definition WBEM_FLAG_FORWARD_ONLY : Z := 0x20.

(** The calls the header makes into the runtime, in the order it makes
    them. *)
Inductive com_call :=
  | CoInitializeEx (dwCoInit : Z)
  | CoInitializeSecurity
  | CoUninitialize
  | CoCreateInstance_WbemLocator
  | ConnectServer (strNetworkResource : string)
  | CoSetProxyBlanket
  | ExecQuery (strQueryLanguage : string) (strQuery : list wchar_t) (lFlags : Z).

(** What the runtime answers.  Every call below is made at most once per
    constructor or query, so an answer per call is all the code can see. *)
Record Runtime := {
  answer_CoInitializeEx : Z → HRESULT;
  answer_CoInitializeSecurity : HRESULT;
  answer_CoCreateInstance : HRESULT * CComPtr;
  answer_ConnectServer : string → HRESULT * CComPtr;
  answer_CoSetProxyBlanket : HRESULT;
  answer_ExecQuery : string → list wchar_t → Z → HRESULT * CComPtr
}.

(** A computation that makes calls and then returns or throws. *)
Definition traced (A : Type) : Type := (list com_call * outcome A)%type.

#[export] Instance traced_ret : MRet traced := fun A a => ([], Return a).
#[export] Instance traced_bind : MBind traced := fun A B f m =>
  match m with
  | (calls, Return a) => let '(calls', r) := f a in (calls ++ calls', r)
  | (calls, Throw e) => (calls, Throw e)
  end.

Definition call {A} (c : com_call) (answer : A) : traced A := ([c], Return answer).
Definition throw {A} (e : exception) : traced A := ([], Throw e).

Definition is_CoUninitialize (c : com_call) : bool :=
  match c with CoUninitialize => true | _ => false end.

Definition is_CoInitializeEx (c : com_call) : bool :=
  match c with CoInitializeEx _ => true | _ => false end.

(** ** The COM initializer *)

Module COMInitializer.
Record t := Build {
  initialized_ : bool
}.

(** [explicit COMInitializer(DWORD threading_model)] *)
Definition new (rt : Runtime) (threading_model : Z) : traced t :=
  let initialized := false in
  hr ← call (CoInitializeEx threading_model) (answer_CoInitializeEx rt threading_model);
  initialized ←
    (if SUCCEEDED hr then mret true
     else if bool_decide (hr ≠ RPC_E_CHANGED_MODE) then
       throw (Exception (FormatHResultError "Failed to initialize COM library" hr))
     else mret initialized);
  hr ← call CoInitializeSecurity (answer_CoInitializeSecurity rt);
  if FAILED hr && bool_decide (hr ≠ RPC_E_TOO_LATE) then
    _ ← (if initialized : bool then call CoUninitialize tt else mret tt);
    throw (Exception (FormatHResultError "Failed to initialize COM security" hr))
  else mret (Build initialized).

(** [~COMInitializer() noexcept] *)
Definition delete (self : t) : traced unit :=
  if initialized_ self then call CoUninitialize tt else mret tt.

(** [bool IsInitialized() const noexcept] *)
Definition IsInitialized (self : t) : bool := initialized_ self.

(** A block that declares a [COMInitializer] and then runs [body]: when the
    constructor throws there is no object and no destructor call; otherwise
    the destructor runs when the block is left, also when [body] throws. *)
Definition scope {A} (rt : Runtime) (threading_model : Z) (body : t → traced A)
    : traced A :=
  match new rt threading_model with
  | (calls, Throw e) => (calls, Throw e)
  | (calls, Return self) =>
      let '(calls_body, r) := body self in
      let '(calls_delete, _) := delete self in
      (calls ++ calls_body ++ calls_delete, r)
  end.
End COMInitializer.

(** ** The session *)

(** A [std::string_view] and the memory behind it: the characters of the
    view, and the characters that follow them in the buffer up to its
    terminating NUL.  [std::string(path)] copies the characters of the
    view; [path.data()] handed to a function that takes a C string is read
    up to the first NUL, which may lie inside the view or beyond its end. *)
Record string_view := {
  sv_view : string;
  sv_rest : string
}.
Bind Scope string_scope with string_view.

(** A view of a whole C string, such as a string literal. *)
Definition whole (s : string) : string_view := {| sv_view := s; sv_rest := "" |}.
Coercion whole : string >-> string_view.

(** The C string at the start of a sequence of characters. *)
Fixpoint c_str (s : string) : string :=
  match s with
  | EmptyString => EmptyString
  | String a s' => if Ascii.eqb a Ascii.zero then EmptyString else String a (c_str s')
  end.

(** [path.data()] read as a C string. *)
Definition data_c_str (path : string_view) : string :=
  c_str (sv_view path +:+ sv_rest path).

Module Interface.
Record t := Build {
  locator_ : CComPtr;
  services_ : CComPtr
}.

(** [explicit Interface(PassKey, std::string_view path)].  The constructor
    calls [ConnectServer] through [locator_] without a test, so a locator
    that is null after a successful [CoCreateInstance] is a pointer to no
    object. *)
Definition new (rt : Runtime) (path : string_view) : traced (run t) :=
  '(result, locator) ← call CoCreateInstance_WbemLocator (answer_CoCreateInstance rt);
  if FAILED result then
    throw (Exception ("Failed to create WbemLocator object. " +:+
                      FormatHResultError "Check if WMI service is available" result))
  else
    match locator with
    | None => mret (Stuck dangling_pointer)
    | Some _ =>
        '(result, services) ←
          call (ConnectServer ("\\.\root\" +:+ data_c_str path))
               (answer_ConnectServer rt ("\\.\root\" +:+ data_c_str path));
        if FAILED result then
          throw (Exception
                   ("Could not connect to WMI namespace '" +:+ sv_view path +:+ "'. " +:+
                    FormatHResultError "Verify namespace exists and access permissions"
                      result))
        else
          result ← call CoSetProxyBlanket (answer_CoSetProxyBlanket rt);
          if FAILED result then
            throw (Exception ("Could not set proxy blanket for WMI connection. " +:+
                              FormatHResultError "Authentication may have failed" result))
          else mret (Done (Build locator services))
    end.

(** [static std::shared_ptr<Interface> Create(std::string_view path)] *)
Definition Create (rt : Runtime) (path : string_view) : traced (run t) := new rt path.

Section ExecuteQuery.
Variable ConvertBSTRToString : list wchar_t → string.

(** [QueryResult ExecuteQuery(std::wstring_view query) const]; [this] is
    what [shared_from_this()] gives. *)
Definition ExecuteQuery (rt : Runtime) (this : InterfacePtr) (query : list wchar_t)
    : traced QueryResult.t :=
  let query_bstr := query in
  let flags := Z.lor WBEM_FLAG_FORWARD_ONLY WBEM_FLAG_RETURN_IMMEDIATELY in
  '(result, enumerator) ←
    call (ExecQuery "WQL" query_bstr flags) (answer_ExecQuery rt "WQL" query_bstr flags);
  if FAILED result then
    let query_str := ConvertBSTRToString query_bstr in
    throw (Exception
             ("WQL query execution failed for query: '" +:+ query_str +:+ "'. " +:+
              FormatHResultError "Check query syntax and target class availability"
                result))
  else mret (QueryResult.Build this enumerator).
End ExecuteQuery.
End Interface.

(** ** A cursor that cannot be reset *)

(** The cursor of a query made with [WBEM_FLAG_FORWARD_ONLY], as
    [ExecuteQuery] makes it: [Next] is that of [ListEnumerator], [Reset]
    fails and leaves the cursor where it is. *)
Definition ForwardOnly_enum : IEnumWbemClassObject ListEnumerator := {|
  Reset e := (WBEM_E_INVALID_OPERATION, e);
  Next := @Next ListEnumerator ListEnumerator_enum
|}.

(** ** More iterator states *)

(** The cursor of the iterator, if it has one, is an object of the heap. *)
Definition cursor_alive {E} (h : gmap nat E) (it : QueryResult.Iterator.t) : Prop :=
  match QueryResult.Iterator.enumerator_ it with
  | Some p => is_Some (h !! p)
  | None => True
  end.

(** Every object of the batch holds the session of its iterator. *)
Definition owns_batch (it : QueryResult.Iterator.t) : Prop :=
  Forall (fun object => Object.iface_ object = QueryResult.Iterator.iface_ it)
         (QueryResult.Iterator.batch_ it).

(** The remote side never stores more objects than [Next] was asked for. *)
Definition respects_count {E} `{!IEnumWbemClassObject E} (B : nat) : Prop :=
  ∀ e : E, (length (Next WBEM_INFINITE B e).1.2 ≤ B)%nat.

(** A run that read no vector out of range and followed no dangling
    pointer. *)
Definition memory_safe {A} (r : run A) : Prop :=
  match r with
  | Stuck out_of_range | Stuck dangling_pointer => False
  | _ => True
  end.

(** The cursor moved forward over the same records and not past their
    end. *)
Definition moved_forward (e e' : ListEnumerator) : Prop :=
  records e' = records e ∧ fault_after e' = fault_after e ∧
  (position e ≤ position e')%nat ∧
  ((position e ≤ length (available e))%nat →
   (position e' ≤ length (available e))%nat).

Definition is_null_BSTR (b : BSTR) : bool :=
  match b with None => true | Some _ => false end.

(** A runtime that answers every call with success and hands out the
    cursor at address 0, and one whose proxy blanket is refused. *)
Definition runtime_ok : Runtime := {|
  answer_CoInitializeEx _ := S_OK;
  answer_CoInitializeSecurity := S_OK;
  answer_CoCreateInstance := (S_OK, Some 100%nat);
  answer_ConnectServer _ := (S_OK, Some 101%nat);
  answer_CoSetProxyBlanket := S_OK;
  answer_ExecQuery _ _ _ := (WBEM_S_NO_ERROR, Some 0%nat)
|}.

Definition runtime_security_refused : Runtime := {|
  answer_CoInitializeEx _ := S_FALSE;
  answer_CoInitializeSecurity := E_ACCESSDENIED;
  answer_CoCreateInstance := (S_OK, Some 100%nat);
  answer_ConnectServer _ := (WBEM_E_INVALID_NAMESPACE, None);
  answer_CoSetProxyBlanket := E_ACCESSDENIED;
  answer_ExecQuery _ _ _ := (WBEM_E_INVALID_QUERY, None)
|}.

Definition runtime_null_cursor : Runtime := {|
  answer_CoInitializeEx _ := RPC_E_CHANGED_MODE;
  answer_CoInitializeSecurity := RPC_E_TOO_LATE;
  answer_CoCreateInstance := (REGDB_E_CLASSNOTREG, None);
  answer_ConnectServer _ := (S_OK, Some 101%nat);
  answer_CoSetProxyBlanket := S_OK;
  answer_ExecQuery _ _ _ := (WBEM_S_NO_ERROR, None)
|}.

(** The number of calls of a kind in a trace. *)
Definition count_calls (kind : com_call → bool) (calls : list com_call) : nat :=
  length (List.filter kind calls).

(** What every iterator has once [FetchNextBatch] or [operator++] ran on
    it. *)
Definition sound {E} `{!IEnumWbemClassObject E} (B : nat) (h : gmap nat E)
    (it : QueryResult.Iterator.t) : Prop :=
  cursor_alive h it ∧ well_indexed it ∧ owns_batch it ∧
  (respects_count B → (length (QueryResult.Iterator.batch_ it) ≤ B)%nat).

(** The cursor once everything it can deliver was fetched. *)
Definition at_end (e : ListEnumerator) : ListEnumerator :=
  Build_ListEnumerator (records e) (length (available e)) (fault_after e).

(** The cursor and the iterator right after [begin()] with batches of [B]:
    the first batch is in memory and the cursor is behind it. *)
Definition after_first_batch (B : nat) (e : ListEnumerator) : ListEnumerator :=
  Build_ListEnumerator (records e) (B `min` length (available e)) (fault_after e).

Definition first_iterator (B : nat) (iface : InterfacePtr) (p : nat)
    (e : ListEnumerator) : QueryResult.Iterator.t :=
  QueryResult.Iterator.Build iface (Some p)
    (Object.Build iface <$> take B (available e)) 0
    (bool_decide (available e = [])).

(** ** Cursors with another [Reset] *)

(** The list cursor with [Reset] replaced: [Next] is that of
    [ListEnumerator], what [Reset] answers and does is [reset]. *)
Definition ListEnumerator_with_Reset
    (reset : ListEnumerator → HRESULT * ListEnumerator)
    : IEnumWbemClassObject ListEnumerator := {|
  Reset := reset;
  Next := @Next ListEnumerator ListEnumerator_enum
|}.

(** The cursor moved back to the first record. *)
Definition rewound (e : ListEnumerator) : ListEnumerator :=
  Build_ListEnumerator (records e) 0 (fault_after e).

(** [Reset] moves the cursor back to the first record, whatever status it
    answers. *)
Definition rewinds (reset : ListEnumerator → HRESULT * ListEnumerator) : Prop :=
  ∀ e, (reset e).2 = rewound e.

(** ** String arrays with a lower bound *)

(** [CComSafeArray<BSTR>] checks an index against the bounds of the
    descriptor, [rgsabound[0].lLbound] and the upper bound that follows
    from it, which the record [SAFEARRAY] above leaves out.  Here the lower
    bound of each array is given by [lLbound], and the converter and
    [GetProperty] are taken again with that check. *)
Section LowerBound.
Variable ConvertBSTRToString : list wchar_t → string.
Variable lLbound : SAFEARRAY → Z.

Definition GetLowerBound (safe_array : SAFEARRAY) : Z := lLbound safe_array.

Definition GetUpperBound (safe_array : SAFEARRAY) : Z :=
  lLbound safe_array + Z.of_nat (GetCount safe_array) - 1.

(** [CComSafeArray<BSTR>::GetAt(LONG lIndex)] *)
Definition GetAt_lb (safe_array : SAFEARRAY) (lIndex : Z) : outcome BSTR :=
  if bool_decide (lIndex < GetLowerBound safe_array)
     || bool_decide (GetUpperBound safe_array < lIndex)
  then Throw (CAtlException E_INVALIDARG)
  else
    match pvData safe_array !! Z.to_nat (lIndex - GetLowerBound safe_array) with
    | Some bstr => Return bstr
    | None => Throw (CAtlException E_INVALIDARG)
    end.

(** The [for] loop of [ConvertVariant<std::vector<std::string>>] over
    [GetAt_lb]. *)
Fixpoint collect_strings_lb (safe_array : SAFEARRAY) (todo i : nat)
    (result : list string) : outcome (list string) :=
  match todo with
  | O => Return result
  | S todo' =>
      bstr ← GetAt_lb safe_array (Z.of_nat i);
      collect_strings_lb safe_array todo' (S i)
        match bstr with
        | Some s => result ++ [ConvertBSTRToString s]
        | None => result
        end
  end.

(** [ConvertVariant<std::vector<std::string>>]: only [Attach] is inside the
    [try]. *)
Definition ConvertVariant_vector_string_lb (variant : CComVariant)
    : outcome (option (list string)) :=
  if bool_decide (vt variant ≠ Z.lor VT_ARRAY VT_BSTR) then Return None
  else
    match Attach (parray variant) with
    | Throw _ => Return None
    | Return safe_array =>
        let count := GetCount safe_array in
        result ← collect_strings_lb safe_array count 0 [];
        Return (Some result)
    end.

Definition ConvertVariant_lb (t : target) (variant : CComVariant)
    : outcome (option (cpp_type t)) :=
  match t with
  | T_vector_string => ConvertVariant_vector_string_lb variant
  | t' => ConvertVariant ConvertBSTRToString t' variant
  end.

(** [Object::GetProperty<T>(name)] *)
Definition GetProperty_lb (T : target) (self : Object.t) (name : string)
    : outcome (option (cpp_type T)) :=
  let '(result, variant) := Get (Object.object_ self) name in
  if FAILED result then Return None
  else
    match T as T' return outcome (option (cpp_type T')) with
    | T_variant_t => Return (Some variant)
    | T' => ConvertVariant_lb T' variant
    end.
End LowerBound.

(** A record with a property that holds a string array. *)
Definition record_with_names : IWbemClassObject :=
  record_of [("DeviceID"%string, VARIANT_bstr "C:");
             ("Names"%string, VARIANT_bstr_array [Some "a"; None; Some "b"]%string)].

(** A runtime whose locator is null although its creation succeeded. *)
Definition runtime_null_locator : Runtime := {|
  answer_CoInitializeEx _ := S_OK;
  answer_CoInitializeSecurity := S_OK;
  answer_CoCreateInstance := (S_OK, None);
  answer_ConnectServer _ := (S_OK, Some 101%nat);
  answer_CoSetProxyBlanket := S_OK;
  answer_ExecQuery _ _ _ := (WBEM_S_NO_ERROR, Some 0%nat)
|}.

(** A view of the first five characters of a longer string. *)
Definition view_cimv2_of_longer : string_view :=
  {| sv_view := "cimv2"; sv_rest := "\security" |}.

(** * Properties *)

(** ** The value converter *)

Section ConverterFacts.
Variable decode : list wchar_t → string.

Lemma ConvertBstrToString_Some v s :
  ConvertBstrToString decode v = Some s ↔
  vt v = VT_BSTR ∧ ∃ w, bstrVal v = Some w ∧ s = decode w.
Proof.
  unfold ConvertBstrToString. case_bool_decide as Hvt.
  - destruct (bstrVal v) as [w|]; split.
    + intros [= <-]. eauto.
    + intros (_ & w' & [= <-] & ->). done.
    + done.
    + intros (_ & w' & [=] & _).
  - split; [done | tauto].
Qed.

Lemma ConvertBstrToString_None v :
  ConvertBstrToString decode v = None ↔ vt v ≠ VT_BSTR ∨ bstrVal v = None.
Proof.
  unfold ConvertBstrToString. case_bool_decide as Hvt.
  - destruct (bstrVal v); split; try done; try tauto. intros [? | [=]]; done.
  - split; [tauto | done].
Qed.

(** The loop visits the elements from [i] on and appends the decoded
    non-null ones to what it already has; the bounds check of [GetAt]
    never fires. *)
Lemma collect_strings_spec sa todo : ∀ i acc,
  (i + todo)%nat = length (pvData sa) →
  collect_strings decode sa todo i acc =
    Return (acc ++ decoded_non_null decode (drop i (pvData sa))).
Proof.
  induction todo as [|todo IH]; intros i acc Hlen; simpl.
  - rewrite drop_ge by lia. by rewrite app_nil_r.
  - unfold GetAt.
    destruct (pvData sa !! i) as [bstr|] eqn:Hi.
    + simpl. rewrite IH by lia.
      rewrite (drop_S _ _ _ Hi). unfold decoded_non_null. simpl.
      destruct bstr as [w|]; simpl; [|done].
      by rewrite <- app_assoc.
    + apply lookup_ge_None in Hi. lia.
Qed.

Lemma Attach_Return psa sa :
  Attach psa = Return sa ↔ psa = Some sa ∧ sa_vartype sa = VT_BSTR.
Proof.
  unfold Attach. destruct psa as [sa'|]; [|split; [done | intros [[=] _]]].
  case_bool_decide; split.
  - by intros [= ->].
  - by intros [[= ->] _].
  - done.
  - intros [[= ->] ?]. done.
Qed.
End ConverterFacts.

(** C5.  Converting a value to [std::string] never throws; it gives the
    decoded text exactly when the tag is [VT_BSTR] and the string pointer
    is not null, and the empty optional in every other case. *)
Theorem ConvertVariant_string_spec (decode : list wchar_t → string) (v : CComVariant) :
  ∃ r : option string,
    ConvertVariant decode T_string v = Return r ∧
    (∀ s, r = Some s ↔ vt v = VT_BSTR ∧ ∃ w, bstrVal v = Some w ∧ s = decode w) ∧
    (r = None ↔ vt v ≠ VT_BSTR ∨ bstrVal v = None).
Proof.
  exists (ConvertBstrToString decode v). split; [done|]. split.
  - intros s. apply ConvertBstrToString_Some.
  - apply ConvertBstrToString_None.
Qed.

(** C6.  Converting a value to [std::vector<std::string>] gives the empty
    optional unless the tag is [VT_ARRAY | VT_BSTR]; a failure of [Attach]
    is caught and also gives the empty optional; otherwise the result holds
    the decoded non-null elements in the order of the array. *)
Theorem ConvertVariant_vector_string_spec (decode : list wchar_t → string)
    (v : CComVariant) :
  (vt v ≠ Z.lor VT_ARRAY VT_BSTR →
     ConvertVariant decode T_vector_string v = Return None) ∧
  (∀ e, vt v = Z.lor VT_ARRAY VT_BSTR → Attach (parray v) = Throw e →
     ConvertVariant decode T_vector_string v = Return None) ∧
  (∀ sa, vt v = Z.lor VT_ARRAY VT_BSTR → Attach (parray v) = Return sa →
     ConvertVariant decode T_vector_string v =
       Return (Some (decoded_non_null decode (pvData sa)))).
Proof.
  simpl. unfold ConvertVariant_vector_string. repeat split.
  - intros Hvt. by rewrite bool_decide_eq_true_2.
  - intros e Hvt Hthrow. rewrite bool_decide_eq_false_2 by tauto.
    by rewrite Hthrow.
  - intros sa Hvt Hattach. rewrite bool_decide_eq_false_2 by tauto.
    rewrite Hattach. unfold GetCount.
    by rewrite collect_strings_spec.
Qed.

Lemma ConvertVariant_vector_string_witness :
  ConvertVariant narrow T_vector_string
    (VARIANT_bstr_array [Some "a"; None; Some "b"]%string) =
    Return (Some ["a"; "b"]%string) ∧
  ConvertVariant narrow T_vector_string (VARIANT_bstr "a") = Return None ∧
  ConvertVariant narrow T_vector_string VARIANT_i4_array_tagged_bstr = Return None.
Proof.
  split; [|split].
  - apply (proj2 (proj2 (ConvertVariant_vector_string_spec narrow
      (VARIANT_bstr_array [Some "a"; None; Some "b"]%string)))
      (Build_SAFEARRAY VT_BSTR
         (map (option_map wide) [Some "a"; None; Some "b"]%string)));
      reflexivity.
  - apply (proj1 (ConvertVariant_vector_string_spec narrow (VARIANT_bstr "a"))).
    vm_compute. discriminate.
  - apply (proj1 (proj2 (ConvertVariant_vector_string_spec narrow
      VARIANT_i4_array_tagged_bstr)) (CAtlException E_INVALIDARG)); reflexivity.
Defined.

(** C7.  The primary template never throws: it returns the value of the
    cast when the cast returns, and the empty optional when the cast throws
    a [_com_error], a [std::exception] or anything else. *)
Theorem ConvertVariant_generic_total (T : Type) (cast : variant_t → outcome T)
    (decode : list wchar_t → string) (v : CComVariant) :
  ConvertVariant decode (T_other T cast) v =
    Return match cast v with
           | Return x => Some x
           | Throw _ => None
           end ∧
  returns (ConvertVariant decode (T_other T cast) v) ∧
  ConvertVariant decode T_variant_t v = Return (Some v).
Proof.
  simpl. unfold ConvertVariant_generic, try_catch, returns.
  destruct (cast v) as [x|e]; simpl.
  - eauto.
  - destruct e; eauto.
Qed.

(** C4.  When the lookup fails [GetProperty<T>] gives the empty optional
    for every [T], the native variant included; when it succeeds
    [GetProperty<variant_t>] gives the variant the lookup produced. *)
Theorem GetProperty_lookup (decode : list wchar_t → string) (self : Object.t)
    (name : string) :
  (FAILED (Get (Object.object_ self) name).1 = true →
     ∀ T, Object.GetProperty decode T self name = Return None) ∧
  (FAILED (Get (Object.object_ self) name).1 = false →
     Object.GetProperty decode T_variant_t self name =
       Return (Some (Get (Object.object_ self) name).2)).
Proof.
  unfold Object.GetProperty.
  destruct (Get (Object.object_ self) name) as [result variant]; simpl.
  split; intros ->; [intros T|]; done.
Qed.

Lemma GetProperty_lookup_witness :
  (∀ T, Object.GetProperty narrow T (Object.Build 7%nat (disk "C:")) "NoSuchField"
        = Return None) ∧
  Object.GetProperty narrow T_variant_t (Object.Build 7%nat (disk "C:")) "DeviceID"
    = Return (Some (VARIANT_bstr "C:")).
Proof.
  split.
  - apply (proj1 (GetProperty_lookup narrow (Object.Build 7%nat (disk "C:"))
                    "NoSuchField")).
    reflexivity.
  - apply (proj2 (GetProperty_lookup narrow (Object.Build 7%nat (disk "C:"))
                    "DeviceID")).
    reflexivity.
Defined.

(** The scenarios of the specification. *)

Example string_property_as_string :
  Object.GetProperty narrow T_string (Object.Build 7%nat (disk "C:")) "DeviceID" =
    Return (Some "C:"%string).
Proof. reflexivity. Qed.

Example string_value_1024 :
  ConvertVariant narrow T_string (VARIANT_bstr "1024") = Return (Some "1024"%string) ∧
  ConvertVariant narrow (T_other Z cast_long) (VARIANT_bstr "1024") = Return None.
Proof. split; reflexivity. Qed.

Example integer_property :
  Object.GetProperty narrow (T_other Z cast_long) (Object.Build 7%nat (disk "C:"))
    "DriveType" = Return (Some 3) ∧
  Object.GetProperty narrow T_string (Object.Build 7%nat (disk "C:"))
    "DriveType" = Return None.
Proof. split; reflexivity. Qed.

Example null_values_as_string :
  ConvertVariant narrow T_string VARIANT_null = Return None ∧
  ConvertVariant narrow T_string VARIANT_empty = Return None ∧
  ConvertVariant narrow T_string VARIANT_null_bstr = Return None.
Proof. repeat split. Qed.

Example every_handler_gives_nullopt (v : CComVariant) :
  ConvertVariant narrow (T_other Z (fun _ => Throw (com_error E_INVALIDARG))) v
    = Return None ∧
  ConvertVariant narrow (T_other Z (fun _ => Throw (std_exception "bad cast"))) v
    = Return None ∧
  ConvertVariant narrow (T_other Z (fun _ => Throw unknown_exception)) v
    = Return None.
Proof. repeat split. Qed.

(** ** The batch iterator over any enumerator *)

Ltac run_monad :=
  unfold mbind, M_bind, mret, M_ret, lift_run; simpl.

Section IteratorFacts.
Context {E : Type} `{!IEnumWbemClassObject E}.
Variable B : nat.
Implicit Types (it : QueryResult.Iterator.t) (h : gmap nat E).

Import QueryResult.

Lemma FetchNextBatch_null it h :
  Iterator.enumerator_ it = None →
  Iterator.FetchNextBatch B it h = Done (exhausted it, h).
Proof.
  intros Hp. unfold Iterator.FetchNextBatch, exhausted. simpl. rewrite Hp.
  reflexivity.
Qed.

Lemma FetchNextBatch_bound it h p e :
  Iterator.enumerator_ it = Some p → h !! p = Some e →
  Iterator.FetchNextBatch B it h =
    Done (if FAILED (Next WBEM_INFINITE B e).1.1
             || bool_decide (length (Next WBEM_INFINITE B e).1.2 = 0%nat)
          then exhausted it
          else Iterator.Build (Iterator.iface_ it) (Some p)
                 (Object.Build (Iterator.iface_ it) <$> (Next WBEM_INFINITE B e).1.2)
                 0 (Iterator.is_end_ it),
          <[p := (Next WBEM_INFINITE B e).2]> h).
Proof.
  intros Hp He. unfold Iterator.FetchNextBatch, exhausted. simpl. rewrite Hp.
  run_monad. unfold call_Next. rewrite He.
  destruct (Next WBEM_INFINITE B e) as [[hr objects] e']. simpl.
  by destruct (FAILED hr || bool_decide (length objects = 0%nat)).
Qed.

Lemma operator_inc_exhausted it h :
  Iterator.is_end_ it = true → Iterator.operator_inc B it h = Done (it, h).
Proof. unfold Iterator.operator_inc. intros ->. reflexivity. Qed.

Lemma advance_exhausted n it h :
  Iterator.is_end_ it = true → advance B n it h = Done (it, h).
Proof.
  intros Hend. induction n as [|n IH]; [done|].
  simpl. run_monad. by rewrite operator_inc_exhausted.
Qed.

Lemma end_eq (result : t) h :
  end_ B result h = Done (Iterator.Build (iface_ result) None [] 0 true, h).
Proof. done. Qed.
End IteratorFacts.

(** ** The batch iterator over a list enumerator *)

Section ListEnumeratorFacts.
Variable B : nat.
Hypothesis B_pos : (1 ≤ B)%nat.
Variable p : nat.
Implicit Types (it : QueryResult.Iterator.t) (e : ListEnumerator)
  (h : gmap nat ListEnumerator).

Import QueryResult.

Lemma chunk_then_rest {A} (l : list A) pos :
  take B (drop pos l) ++ drop (pos + length (take B (drop pos l))) l = drop pos l.
Proof.
  rewrite <- drop_drop, length_take.
  destruct (decide (B ≤ length (drop pos l))%nat).
  - rewrite Nat.min_l by done. apply take_drop.
  - rewrite Nat.min_r by lia. rewrite drop_all, app_nil_r.
    apply take_ge. lia.
Qed.

Lemma take_nil_inv {A} (l : list A) : take B l = [] → l = [].
Proof. destruct l, B; simpl; [done | done | lia | done]. Qed.

Lemma broken_nothing_left e :
  broken e = true → drop (position e) (available e) = [].
Proof.
  unfold broken, available. destruct (fault_after e) as [f|]; [|done].
  intros Hf%bool_decide_eq_true. apply drop_ge.
  rewrite length_take. lia.
Qed.

Lemma remaining_nil it e :
  well_indexed it → remaining it e = [] → Iterator.is_end_ it = true.
Proof.
  clear B_pos. unfold well_indexed, remaining.
  destruct (Iterator.is_end_ it); [done|]. intros Hidx Hnil.
  specialize (Hidx eq_refl).
  apply (f_equal length) in Hnil.
  rewrite length_app, length_drop in Hnil. simpl in Hnil. lia.
Qed.

Lemma remaining_exhausted it e :
  Iterator.is_end_ it = true → remaining it e = [].
Proof. unfold remaining. by intros ->. Qed.

(** A fetch leaves the iterator with exactly what the cursor had not
    delivered. *)
Lemma FetchNextBatch_list it e h :
  Iterator.enumerator_ it = Some p → Iterator.is_end_ it = false →
  h !! p = Some e →
  ∃ it' e',
    Iterator.FetchNextBatch B it h = Done (it', <[p := e']> h) ∧
    follows p it e it' e' ∧
    remaining it' e' =
      Object.Build (Iterator.iface_ it) <$> drop (position e) (available e).
Proof.
  intros Hp Hend He. rewrite (FetchNextBatch_bound B it h p e Hp He).
  unfold follows, well_indexed, remaining, exhausted. simpl.
  destruct (broken e) eqn:Hbroken; simpl.
  - eexists _, _. split; [done|]. simpl.
    rewrite broken_nothing_left by done. by rewrite Hp.
  - set (objects := take B (drop (position e) (available e))).
    assert (FAILED (if bool_decide (length objects = B)
                    then WBEM_S_NO_ERROR else WBEM_S_FALSE) = false) as ->
      by by case_bool_decide.
    simpl. case_bool_decide as Hcount.
    + eexists _, _. split; [done|]. simpl.
      apply nil_length_inv, take_nil_inv in Hcount. rewrite Hcount.
      by rewrite Hp.
    + eexists _, _. split; [done|]. simpl. rewrite Hend.
      repeat split; try done.
      * intros _. rewrite length_fmap. lia.
      * rewrite drop_0, <- fmap_app. f_equal. apply chunk_then_rest.
Qed.

(** One turn of the loop: the iterator points at the next object to
    yield, and the advance leaves the rest. *)
Lemma operator_inc_list it e h :
  Iterator.enumerator_ it = Some p → Iterator.is_end_ it = false →
  well_indexed it → h !! p = Some e →
  ∃ object it' e',
    Iterator.operator_deref it = Done object ∧
    Iterator.operator_inc B it h = Done (it', <[p := e']> h) ∧
    follows p it e it' e' ∧
    remaining it e = object :: remaining it' e'.
Proof.
  intros Hp Hend Hidx He. specialize (Hidx Hend).
  destruct (lookup_lt_is_Some_2 _ _ Hidx) as [object Hobject].
  exists object. unfold Iterator.operator_deref, Iterator.operator_inc.
  rewrite Hobject, Hend. simpl. case_bool_decide as Hlast.
  - set (it1 := Iterator.Build _ _ _ _ _).
    destruct (FetchNextBatch_list it1 e h Hp eq_refl He)
      as (it' & e' & -> & Hfollows & Hrest).
    exists it', e'. repeat split; try apply Hfollows; try done.
    unfold remaining at 1. rewrite Hend, Hrest.
    rewrite (drop_S _ _ _ Hobject), drop_ge by done. done.
  - eexists _, e. rewrite insert_id by done. split; [done|]. split; [done|].
    unfold follows, well_indexed, remaining. simpl. rewrite Hend.
    repeat split; try done.
    + intros _. lia.
    + by rewrite (drop_S _ _ _ Hobject).
Qed.

Lemma follows_trans it e it1 e1 it2 e2 :
  follows p it e it1 e1 → follows p it1 e1 it2 e2 → follows p it e it2 e2.
Proof.
  unfold follows. intros (? & ? & ? & ? & ?) (? & ? & ? & ? & ?).
  repeat split; try congruence; assumption.
Qed.

(** The loop yields what remains, in order, and needs one test of its
    condition more than there are objects. *)
Lemma loop_list end_it (l : list Object.t) : ∀ fuel it e h,
  Iterator.is_end_ end_it = true →
  Iterator.enumerator_ it = Some p → well_indexed it → h !! p = Some e →
  remaining it e = l → (length l < fuel)%nat →
  ∃ e', loop B fuel it end_it h = Done (l, <[p := e']> h) ∧
        records e' = records e ∧ fault_after e' = fault_after e.
Proof.
  induction l as [|object l IH]; intros fuel it e h Hsentinel Hp Hidx He Hrem Hfuel;
    (destruct fuel as [|fuel]; [simpl in Hfuel; lia|]); simpl;
    unfold Iterator.operator_ne, Iterator.operator_eq; rewrite Hsentinel.
  - rewrite (remaining_nil it e Hidx Hrem). simpl.
    exists e. rewrite insert_id by done. done.
  - destruct (Iterator.is_end_ it) eqn:Hend.
    { by rewrite remaining_exhausted in Hrem. }
    rewrite bool_decide_eq_false_2 by done. simpl.
    destruct (operator_inc_list it e h Hp Hend Hidx He)
      as (object' & it' & e' & Hderef & Hinc & Hfollows & Hsplit).
    rewrite Hrem in Hsplit. injection Hsplit as <- Hl.
    destruct Hfollows as (Hp' & _ & Hrecords & Hfault & Hidx').
    destruct (IH fuel it' e' (<[p := e']> h) Hsentinel Hp' Hidx'
                (lookup_insert_eq _ _ _) (eq_sym Hl))
      as (e'' & Hloop & Hrecords' & Hfault').
    { simpl in Hfuel. lia. }
    exists e''. run_monad. rewrite Hderef, Hinc, Hloop, insert_insert_eq.
    repeat split; congruence.
Qed.

(** [begin()] on a result bound to the cursor: whatever the position of
    the cursor was, the pass has all available records before it. *)
Lemma begin_list iface e h :
  h !! p = Some e →
  ∃ it e',
    begin B (Build iface (Some p)) h = Done (it, <[p := e']> h) ∧
    Iterator.enumerator_ it = Some p ∧ Iterator.iface_ it = iface ∧
    records e' = records e ∧ fault_after e' = fault_after e ∧
    well_indexed it ∧
    remaining it e' = Object.Build iface <$> available e.
Proof.
  intros He. unfold begin, Iterator.new. simpl. run_monad.
  unfold call_Reset. rewrite He. simpl.
  set (e0 := Build_ListEnumerator (records e) 0 (fault_after e)).
  set (it0 := Iterator.Build iface (Some p) [] 0 false).
  destruct (FetchNextBatch_list it0 e0 (<[p := e0]> h) eq_refl eq_refl
              (lookup_insert_eq _ _ _))
    as (it & e' & -> & (Hp & Hiface & Hrecords & Hfault & Hidx) & Hrest).
  exists it, e'. rewrite insert_insert_eq. by repeat split.
Qed.

(** A whole range-based [for] yields the available records. *)
Lemma range_for_list iface e h fuel :
  h !! p = Some e → (length (available e) < fuel)%nat →
  ∃ e', range_for B fuel (Build iface (Some p)) h =
          Done (Object.Build iface <$> available e, <[p := e']> h) ∧
        records e' = records e ∧ fault_after e' = fault_after e.
Proof.
  intros He Hfuel. unfold range_for. run_monad.
  destruct (begin_list iface e h He)
    as (it & e1 & -> & Hp & Hiface & Hrecords & Hfault & Hidx & Hrem).
  set (end_it := Iterator.Build iface None [] 0 true).
  destruct (loop_list end_it _ fuel it e1 (<[p := e1]> h) eq_refl Hp Hidx
              (lookup_insert_eq _ _ _) Hrem)
    as (e' & -> & Hrecords' & Hfault').
  { by rewrite length_fmap. }
  exists e'. rewrite insert_insert_eq. repeat split; congruence.
Qed.

(** [k] advances drop [k] objects from what remains. *)
Lemma advance_list k : ∀ it e h,
  Iterator.enumerator_ it = Some p → well_indexed it → h !! p = Some e →
  ∃ it' e',
    advance B k it h = Done (it', <[p := e']> h) ∧
    follows p it e it' e' ∧
    remaining it' e' = drop k (remaining it e).
Proof.
  induction k as [|k IH]; intros it e h Hp Hidx He; simpl.
  - exists it, e. rewrite insert_id by done. by repeat split.
  - run_monad. destruct (Iterator.is_end_ it) eqn:Hend.
    + rewrite operator_inc_exhausted by done.
      destruct (IH it e h Hp Hidx He) as (it' & e' & -> & Hfollows & Hrem).
      exists it', e'. repeat split; try apply Hfollows.
      rewrite Hrem, remaining_exhausted by done. by rewrite !drop_nil.
    + destruct (operator_inc_list it e h Hp Hend Hidx He)
        as (object & it1 & e1 & _ & -> & Hfollows & ->).
      destruct (IH it1 e1 (<[p := e1]> h)) as (it' & e' & -> & Hfollows' & Hrem);
        [apply Hfollows | apply Hfollows | apply lookup_insert_eq |].
      exists it', e'. rewrite insert_insert_eq.
      split; [done|]. split; [by eapply follows_trans|]. done.
Qed.

Lemma is_end_remaining it e :
  well_indexed it →
  Iterator.is_end_ it = bool_decide (remaining it e = []).
Proof.
  clear B_pos. intros Hidx. case_bool_decide as Hrem.
  - by eapply remaining_nil.
  - destruct (Iterator.is_end_ it) eqn:Hend; [|done].
    by rewrite remaining_exhausted in Hrem.
Qed.
End ListEnumeratorFacts.

(** ** The claims about iteration *)

(** C1.  Over a cursor that delivers its [N] records, a range-based [for]
    yields exactly those [N] records, wrapped with the session of the
    result, in remote order, for every batch size of at least one: the
    batch size does not occur in what is yielded. *)
Theorem range_for_yields_all (B N : nat) (iface : InterfacePtr) (p : nat)
    (recs : list IWbemClassObject) (pos fuel : nat)
    (h : gmap nat ListEnumerator) :
  (1 ≤ B)%nat → length recs = N → h !! p = Some (healthy recs pos) →
  (N < fuel)%nat →
  ∃ h', QueryResult.range_for B fuel (QueryResult.Build iface (Some p)) h =
          Done (Object.Build iface <$> recs, h') ∧
        length (Object.Build iface <$> recs) = N.
Proof.
  intros HB HN He Hfuel.
  destruct (range_for_list B HB p iface _ h fuel He) as (e' & Hrun & _).
  { simpl. unfold available. simpl. lia. }
  exists (<[p := e']> h). split; [exact Hrun|]. by rewrite length_fmap.
Qed.

Lemma range_for_yields_all_witness :
  ∃ h', QueryResult.range_for BATCH_SIZE 13 result_at_0
          (heap_of (healthy twelve_disks 5)) =
          Done (Object.Build 7%nat <$> twelve_disks, h') ∧
        length (Object.Build 7%nat <$> twelve_disks) = 12%nat.
Proof.
  apply (range_for_yields_all BATCH_SIZE 12 7%nat 0%nat twelve_disks 5 13
           (heap_of (healthy twelve_disks 5))).
  - unfold BATCH_SIZE. lia.
  - reflexivity.
  - reflexivity.
  - lia.
Defined.

(** C2, as the header has it.  Two iterators compare equal exactly when
    their end-of-sequence flags agree: two exhausted iterators are equal, an
    iterator that is not exhausted differs from every exhausted one, the
    end sentinel included, and two iterators that are not exhausted are
    equal whatever cursors and positions they have. *)
Theorem operator_eq_compares_flags (a b : QueryResult.Iterator.t) :
  (QueryResult.Iterator.operator_eq a b = true ↔
     QueryResult.Iterator.is_end_ a = QueryResult.Iterator.is_end_ b) ∧
  (QueryResult.Iterator.is_end_ a = true → QueryResult.Iterator.is_end_ b = true →
     QueryResult.Iterator.operator_eq a b = true) ∧
  (QueryResult.Iterator.is_end_ a = false → QueryResult.Iterator.is_end_ b = true →
     QueryResult.Iterator.operator_eq a b = false ∧
     QueryResult.Iterator.operator_eq b a = false) ∧
  (QueryResult.Iterator.is_end_ a = false → QueryResult.Iterator.is_end_ b = false →
     QueryResult.Iterator.operator_eq a b = true).
Proof.
  unfold QueryResult.Iterator.operator_eq.
  rewrite bool_decide_eq_true.
  destruct (QueryResult.Iterator.is_end_ a), (QueryResult.Iterator.is_end_ b);
    repeat split; intros; try congruence; reflexivity.
Qed.

Lemma operator_eq_compares_flags_witness :
  QueryResult.Iterator.operator_eq active_iterator end_sentinel = false ∧
  QueryResult.Iterator.operator_eq end_sentinel active_iterator = false.
Proof.
  apply (proj1 (proj2 (proj2 (operator_eq_compares_flags active_iterator
                                end_sentinel))));
    reflexivity.
Defined.

(** C2 as stated fails: [begin()] on a result of one record gives an
    iterator that is not exhausted, and it compares equal to an iterator of
    another cursor that is not exhausted either. *)
Lemma active_iterators_compare_equal :
  QueryResult.begin BATCH_SIZE result_at_0 (heap_of (healthy [disk "C:"] 0)) =
    Done (active_iterator, heap_of (healthy [disk "C:"] 1)) ∧
  QueryResult.Iterator.operator_eq active_iterator other_active_iterator = true ∧
  QueryResult.Iterator.is_end_ active_iterator = false ∧
  QueryResult.Iterator.is_end_ other_active_iterator = false.
Proof. repeat split; vm_compute; reflexivity. Qed.

(** *** Cursors with another [Reset] *)

(** The loop never calls [Reset], so it does not depend on it. *)
Lemma loop_with_Reset reset (B fuel : nat) : ∀ (it end_it : QueryResult.Iterator.t)
    (h : gmap nat ListEnumerator),
  @QueryResult.loop _ (ListEnumerator_with_Reset reset) B fuel it end_it h =
  @QueryResult.loop _ ListEnumerator_enum B fuel it end_it h.
Proof.
  induction fuel as [|fuel IH]; intros it end_it h; simpl; [done|].
  destruct (QueryResult.Iterator.operator_ne it end_it); [|done].
  run_monad. destruct (QueryResult.Iterator.operator_deref it); [|done].
  change (@QueryResult.Iterator.operator_inc _ (ListEnumerator_with_Reset reset) B it h)
    with (@QueryResult.Iterator.operator_inc _ ListEnumerator_enum B it h).
  destruct (QueryResult.Iterator.operator_inc B it h) as [[it' h']|]; [|done].
  by rewrite IH.
Qed.

(** [begin()] looks at what [Reset] did to the cursor, not at its status. *)
Lemma begin_with_Reset reset (B : nat) (iface : InterfacePtr) (p : nat)
    (e : ListEnumerator) (h : gmap nat ListEnumerator) :
  h !! p = Some e →
  @QueryResult.begin _ (ListEnumerator_with_Reset reset) B
      (QueryResult.Build iface (Some p)) h =
    @QueryResult.Iterator.new _ ListEnumerator_enum B iface (Some p) false
      (<[p := (reset e).2]> h).
Proof.
  intros He. unfold QueryResult.begin. simpl. run_monad.
  unfold call_Reset. rewrite He. simpl. by destruct (reset e).
Qed.

Lemma begin_rewound reset (B : nat) (iface : InterfacePtr) (p : nat)
    (e : ListEnumerator) (h : gmap nat ListEnumerator) :
  h !! p = Some e → (reset e).2 = rewound e →
  @QueryResult.begin _ (ListEnumerator_with_Reset reset) B
      (QueryResult.Build iface (Some p)) h =
  @QueryResult.begin _ ListEnumerator_enum B (QueryResult.Build iface (Some p)) h.
Proof.
  intros He Hreset. rewrite (begin_with_Reset reset B iface p e h He), Hreset.
  unfold QueryResult.begin. simpl. run_monad. unfold call_Reset. by rewrite He.
Qed.





(** C8.  A fetch that fails or stores no record ends the iteration without
    any error: the iterator is left exhausted with an empty batch, the same
    in both cases; and a pass over a connection that breaks after [f]
    records runs to its end and yields what a pass over a result of just
    those [f] records yields. *)
Theorem fetch_failure_is_end_of_sequence :
  (∀ (E : Type) (enum : IEnumWbemClassObject E) (B : nat)
     (it : QueryResult.Iterator.t) (p : nat) (e : E) (h : gmap nat E),
     QueryResult.Iterator.enumerator_ it = Some p → h !! p = Some e →
     FAILED (Next WBEM_INFINITE B e).1.1 = true ∨ (Next WBEM_INFINITE B e).1.2 = [] →
     QueryResult.Iterator.FetchNextBatch B it h =
       Done (exhausted it, <[p := (Next WBEM_INFINITE B e).2]> h) ∧
     QueryResult.Iterator.is_end_ (exhausted it) = true) ∧
  (∀ (B : nat) (iface : InterfacePtr) (p : nat) (recs : list IWbemClassObject)
     (pos f fuel : nat) (h : gmap nat ListEnumerator),
     (1 ≤ B)%nat → (length recs < fuel)%nat →
     h !! p = Some (Build_ListEnumerator recs pos (Some f)) →
     ∃ h1 h2,
       QueryResult.range_for B fuel (QueryResult.Build iface (Some p)) h =
         Done (Object.Build iface <$> take f recs, h1) ∧
       QueryResult.range_for B fuel (QueryResult.Build iface (Some p))
           (<[p := healthy (take f recs) pos]> h) =
         Done (Object.Build iface <$> take f recs, h2)).
Proof.
  split.
  - intros E enum B it p e h Hp He Hfetch.
    rewrite (FetchNextBatch_bound B it h p e Hp He). split; [|done].
    destruct Hfetch as [-> | ->]; [done|].
    by rewrite orb_true_r.
  - intros B iface p recs pos f fuel h HB Hfuel He.
    destruct (range_for_list B HB p iface _ h fuel He) as (e1 & -> & _).
    { unfold available. simpl. rewrite length_take. lia. }
    destruct (range_for_list B HB p iface (healthy (take f recs) pos)
                (<[p := healthy (take f recs) pos]> h) fuel
                (lookup_insert_eq _ _ _)) as (e2 & -> & _).
    { unfold available. simpl. rewrite length_take. lia. }
    eauto.
Qed.

Lemma fetch_failure_is_end_of_sequence_witness :
  QueryResult.Iterator.FetchNextBatch BATCH_SIZE
      (QueryResult.Iterator.Build 7%nat (Some 0%nat)
         (Object.Build 7%nat <$> take 3 twelve_disks) 3 false)
      (heap_of (Build_ListEnumerator twelve_disks 3 (Some 3%nat))) =
    Done (QueryResult.Iterator.Build 7%nat (Some 0%nat) [] 0 true,
          heap_of (Build_ListEnumerator twelve_disks 3 (Some 3%nat))) ∧
  ∃ h1 h2,
    QueryResult.range_for BATCH_SIZE 13 result_at_0 (heap_of breaks_after_three) =
      Done (Object.Build 7%nat <$> take 3 twelve_disks, h1) ∧
    QueryResult.range_for BATCH_SIZE 13 result_at_0
        (<[0%nat := healthy (take 3 twelve_disks) 0]> (heap_of breaks_after_three)) =
      Done (Object.Build 7%nat <$> take 3 twelve_disks, h2).
Proof.
  split.
  - refine (proj1 (proj1 fetch_failure_is_end_of_sequence ListEnumerator _
             BATCH_SIZE
             (QueryResult.Iterator.Build 7%nat (Some 0%nat)
                (Object.Build 7%nat <$> take 3 twelve_disks) 3 false)
             0%nat (Build_ListEnumerator twelve_disks 3 (Some 3%nat))
             (heap_of (Build_ListEnumerator twelve_disks 3 (Some 3%nat)))
             _ _ _)).
    + reflexivity.
    + reflexivity.
    + left. reflexivity.
  - apply (proj2 fetch_failure_is_end_of_sequence BATCH_SIZE 7%nat 0%nat
             twelve_disks 0%nat 3%nat 13%nat (heap_of breaks_after_three)).
    + unfold BATCH_SIZE. lia.
    + vm_compute. lia.
    + reflexivity.
Defined.

(** C9.  An exhausted iterator stays as it is under every advance, prefix
    or postfix, and the enumerator is not touched; and over a cursor that
    delivers its [N] records the flag of the iterator after [k] advances
    from [begin()] is set exactly when [N ≤ k], so it is set by the advance
    past the last record and by no other. *)
Theorem exhausted_is_terminal :
  (∀ (E : Type) (enum : IEnumWbemClassObject E) (B n : nat)
     (it : QueryResult.Iterator.t) (h : gmap nat E),
     QueryResult.Iterator.is_end_ it = true →
     QueryResult.Iterator.operator_inc B it h = Done (it, h) ∧
     QueryResult.Iterator.operator_inc_post B it h = Done ((it, it), h) ∧
     QueryResult.advance B n it h = Done (it, h)) ∧
  (∀ (B : nat) (iface : InterfacePtr) (p : nat) (recs : list IWbemClassObject)
     (pos k : nat) (h : gmap nat ListEnumerator),
     (1 ≤ B)%nat → h !! p = Some (healthy recs pos) →
     ∃ it h1 it' h',
       QueryResult.begin B (QueryResult.Build iface (Some p)) h = Done (it, h1) ∧
       QueryResult.advance B k it h1 = Done (it', h') ∧
       QueryResult.Iterator.is_end_ it' = bool_decide (length recs ≤ k)%nat).
Proof.
  split.
  - intros E enum B n it h Hend. split; [|split].
    + by apply operator_inc_exhausted.
    + unfold QueryResult.Iterator.operator_inc_post. run_monad.
      by rewrite operator_inc_exhausted.
    + by apply advance_exhausted.
  - intros B iface p recs pos k h HB He.
    destruct (begin_list B HB p iface _ h He)
      as (it & e1 & Hbegin & Hp & Hiface & _ & _ & Hidx & Hrem).
    destruct (advance_list B HB p k it e1 (<[p := e1]> h) Hp Hidx
                (lookup_insert_eq _ _ _))
      as (it' & e' & Hadvance & Hfollows & Hrem').
    exists it, (<[p := e1]> h), it', (<[p := e']> (<[p := e1]> h)).
    split; [done|]. split; [done|].
    rewrite (is_end_remaining it' e') by apply Hfollows.
    rewrite Hrem', Hrem. apply bool_decide_ext.
    unfold available. simpl. split.
    + intros Hnil. apply (f_equal length) in Hnil.
      rewrite length_drop, length_fmap in Hnil. simpl in Hnil. lia.
    + intros Hk. apply drop_ge. by rewrite length_fmap.
Qed.

Lemma exhausted_is_terminal_witness :
  QueryResult.advance BATCH_SIZE 5 end_sentinel (heap_of (healthy twelve_disks 0)) =
    Done (end_sentinel, heap_of (healthy twelve_disks 0)) ∧
  ∃ it h1 it' h',
    QueryResult.begin BATCH_SIZE result_at_0 (heap_of (healthy twelve_disks 0)) =
      Done (it, h1) ∧
    QueryResult.advance BATCH_SIZE 11 it h1 = Done (it', h') ∧
    QueryResult.Iterator.is_end_ it' = false.
Proof.
  split.
  - apply (proj1 exhausted_is_terminal ListEnumerator _ BATCH_SIZE 5%nat
             end_sentinel (heap_of (healthy twelve_disks 0))).
    reflexivity.
  - apply (proj2 exhausted_is_terminal BATCH_SIZE 7%nat 0%nat twelve_disks
             0%nat 11%nat (heap_of (healthy twelve_disks 0))).
    + unfold BATCH_SIZE. lia.
    + reflexivity.
Defined.

(** C10.  On a result with a null cursor [begin()] gives an iterator that
    is not exhausted and has an empty batch; it differs from [end()], its
    dereference reads index 0 of the empty batch, and one advance exhausts
    it. *)
Theorem null_cursor_begin (E : Type) (enum : IEnumWbemClassObject E) (B : nat)
    (iface : InterfacePtr) (h : gmap nat E) :
  ∃ it end_it,
    QueryResult.begin B (QueryResult.Build iface None) h = Done (it, h) ∧
    QueryResult.end_ B (QueryResult.Build iface None) h = Done (end_it, h) ∧
    QueryResult.Iterator.is_end_ it = false ∧
    QueryResult.Iterator.batch_ it = [] ∧
    QueryResult.Iterator.current_index_ it = 0%nat ∧
    QueryResult.Iterator.operator_eq it end_it = false ∧
    QueryResult.Iterator.operator_ne it end_it = true ∧
    QueryResult.Iterator.operator_deref it = Stuck out_of_range ∧
    ∃ it', QueryResult.Iterator.operator_inc B it h = Done (it', h) ∧
           QueryResult.Iterator.is_end_ it' = true ∧
           QueryResult.Iterator.operator_eq it' end_it = true.
Proof.
  exists (QueryResult.Iterator.Build iface None [] 0 false),
         (QueryResult.Iterator.Build iface None [] 0 true).
  repeat split.
  exists (QueryResult.Iterator.Build iface None [] 0 true).
  repeat split.
Qed.


(** * Further properties *)

(** ** Error messages *)

Lemma list_ascii_of_string_app (s1 s2 : string) :
  String.list_ascii_of_string (s1 +:+ s2) =
  String.list_ascii_of_string s1 ++ String.list_ascii_of_string s2.
Proof. induction s1 as [|a s1 IH]; simpl; [done|]. by rewrite IH. Qed.

Lemma string_app_inj_r (s1 s2 t : string) : s1 +:+ t = s2 +:+ t → s1 = s2.
Proof.
  intros Heq. apply (f_equal String.list_ascii_of_string) in Heq.
  rewrite !list_ascii_of_string_app in Heq. apply app_inv_tail in Heq.
  rewrite <- (String.string_of_list_ascii_of_string s1),
          <- (String.string_of_list_ascii_of_string s2).
  by rewrite Heq.
Qed.

Lemma parse_unsigned_to_string (n : N) : parse_unsigned (to_string n) = Some n.
Proof.
  unfold parse_unsigned, to_string.
  rewrite DecimalString.NilZero.usu.
  - simpl. by rewrite DecimalN.Unsigned.of_to.
  - destruct n as [|q]; simpl; [done|]. apply DecimalPos.Unsigned.to_uint_nonnil.
Qed.

Lemma to_string_inj (n1 n2 : N) : to_string n1 = to_string n2 → n1 = n2.
Proof.
  intros Heq. apply (f_equal parse_unsigned) in Heq.
  rewrite !parse_unsigned_to_string in Heq. congruence.
Qed.

Lemma HRESULT_of_unsigned (hr : HRESULT) :
  - 2 ^ 31 ≤ hr < 2 ^ 31 →
  HRESULT_of_hex (Z.of_N (static_cast_unsigned hr)) = hr.
Proof.
  intros Hrange. unfold HRESULT_of_hex, static_cast_unsigned.
  rewrite Z2N.id by (apply Z.mod_pos_bound; lia).
  destruct (decide (0 ≤ hr)) as [Hpos|Hneg].
  - rewrite Z.mod_small by lia. case_decide; lia.
  - rewrite <- (Z.mod_unique hr (2 ^ 32) (-1) (hr + 2 ^ 32)) by lia.
    case_decide; lia.
Qed.

(** X1.  The message is the operation, the literal [" (HRESULT: 0x"], a
    number and [")"]; the number is written in decimal digits, and read as
    a decimal number it is the [HRESULT] taken as an unsigned 32-bit value,
    from which the [HRESULT] is recovered. *)
Theorem FormatHResultError_round_trip (operation : string) (hr : HRESULT) :
  - 2 ^ 31 ≤ hr < 2 ^ 31 →
  ∃ (digits : string) (n : N),
    FormatHResultError operation hr =
      (operation +:+ " (HRESULT: 0x" +:+ digits +:+ ")")%string ∧
    parse_unsigned digits = Some n ∧
    Z.of_N n = hr mod 2 ^ 32 ∧
    HRESULT_of_hex (Z.of_N n) = hr.
Proof.
  intros Hrange.
  exists (to_string (static_cast_unsigned hr)), (static_cast_unsigned hr).
  split; [done|]. split; [apply parse_unsigned_to_string|]. split.
  - unfold static_cast_unsigned. apply Z2N.id, Z.mod_pos_bound. lia.
  - by apply HRESULT_of_unsigned.
Qed.

Lemma FormatHResultError_round_trip_witness :
  ∃ (digits : string) (n : N),
    FormatHResultError "Failed to initialize COM library" E_ACCESSDENIED =
      ("Failed to initialize COM library" +:+ " (HRESULT: 0x" +:+ digits +:+ ")")%string ∧
    parse_unsigned digits = Some n ∧
    Z.of_N n = E_ACCESSDENIED mod 2 ^ 32 ∧
    HRESULT_of_hex (Z.of_N n) = E_ACCESSDENIED.
Proof.
  apply (FormatHResultError_round_trip "Failed to initialize COM library"
           E_ACCESSDENIED).
  vm_compute. split; [discriminate | reflexivity].
Defined.

(** X2.  For one operation, two different 32-bit status codes never give
    the same message. *)
Theorem FormatHResultError_inj (operation : string) (hr1 hr2 : HRESULT) :
  - 2 ^ 31 ≤ hr1 < 2 ^ 31 → - 2 ^ 31 ≤ hr2 < 2 ^ 31 → hr1 ≠ hr2 →
  FormatHResultError operation hr1 ≠ FormatHResultError operation hr2.
Proof.
  intros Hrange1 Hrange2 Hne Heq. apply Hne. unfold FormatHResultError in Heq.
  apply (inj (String.app operation)) in Heq.
  apply (inj (String.app " (HRESULT: 0x")) in Heq.
  apply string_app_inj_r, to_string_inj in Heq.
  rewrite <- (HRESULT_of_unsigned hr1), <- (HRESULT_of_unsigned hr2) by done.
  by rewrite Heq.
Qed.

Lemma FormatHResultError_inj_witness :
  FormatHResultError "Authentication may have failed" E_ACCESSDENIED ≠
  FormatHResultError "Authentication may have failed" E_INVALIDARG.
Proof.
  apply (FormatHResultError_inj "Authentication may have failed"
           E_ACCESSDENIED E_INVALIDARG).
  - vm_compute. split; [discriminate | reflexivity].
  - vm_compute. split; [discriminate | reflexivity].
  - discriminate.
Defined.

(** ** The COM initializer *)

Ltac run_traced :=
  unfold mbind, traced_bind, mret, traced_ret, call, throw; simpl.

Lemma count_calls_app kind (calls1 calls2 : list com_call) :
  count_calls kind (calls1 ++ calls2) =
  (count_calls kind calls1 + count_calls kind calls2)%nat.
Proof. unfold count_calls. by rewrite List.filter_app, length_app. Qed.

Lemma count_calls_none kind (calls : list com_call) :
  Forall (fun c => kind c = false) calls → count_calls kind calls = 0%nat.
Proof.
  unfold count_calls. induction 1 as [|c calls Hc _ IH]; simpl; [done|].
  by rewrite Hc.
Qed.

Lemma SUCCEEDED_FAILED (hr : HRESULT) : SUCCEEDED hr = negb (FAILED hr).
Proof. unfold SUCCEEDED, FAILED. repeat case_bool_decide; simpl; lia. Qed.

(** The way the constructor ends normally, and the two ways it throws. *)
Lemma COMInitializer_new_cases (rt : Runtime) (m : Z) :
  COMInitializer.new rt m =
    if negb (SUCCEEDED (answer_CoInitializeEx rt m))
       && bool_decide (answer_CoInitializeEx rt m ≠ RPC_E_CHANGED_MODE) then
      ([CoInitializeEx m],
       Throw (Exception (FormatHResultError "Failed to initialize COM library"
                           (answer_CoInitializeEx rt m))))
    else if FAILED (answer_CoInitializeSecurity rt)
            && bool_decide (answer_CoInitializeSecurity rt ≠ RPC_E_TOO_LATE) then
      ([CoInitializeEx m; CoInitializeSecurity] ++
         (if SUCCEEDED (answer_CoInitializeEx rt m) then [CoUninitialize] else []),
       Throw (Exception (FormatHResultError "Failed to initialize COM security"
                           (answer_CoInitializeSecurity rt))))
    else
      ([CoInitializeEx m; CoInitializeSecurity],
       Return (COMInitializer.Build (SUCCEEDED (answer_CoInitializeEx rt m)))).
Proof.
  unfold COMInitializer.new. run_traced.
  destruct (SUCCEEDED (answer_CoInitializeEx rt m)); simpl.
  - destruct (FAILED (answer_CoInitializeSecurity rt)
              && bool_decide (answer_CoInitializeSecurity rt ≠ RPC_E_TOO_LATE)); done.
  - destruct (bool_decide (answer_CoInitializeEx rt m ≠ RPC_E_CHANGED_MODE));
      simpl; [done|].
    destruct (FAILED (answer_CoInitializeSecurity rt)
              && bool_decide (answer_CoInitializeSecurity rt ≠ RPC_E_TOO_LATE)); done.
Qed.

(** X3.  Whatever the runtime answers and however the block is left, a
    block that declares a [COMInitializer] calls [CoUninitialize] once if
    its [CoInitializeEx] succeeded and not at all otherwise, provided the
    body itself does not call it. *)
Theorem COMInitializer_scope_balanced (A : Type) (rt : Runtime) (m : Z)
    (body : COMInitializer.t → traced A) :
  (∀ self, Forall (fun c => is_CoUninitialize c = false) (body self).1) →
  count_calls is_CoUninitialize (COMInitializer.scope rt m body).1 =
    (if SUCCEEDED (answer_CoInitializeEx rt m) then 1 else 0)%nat ∧
  count_calls is_CoInitializeEx (COMInitializer.new rt m).1 = 1%nat.
Proof.
  intros Hbody. unfold COMInitializer.scope.
  rewrite COMInitializer_new_cases.
  destruct (SUCCEEDED (answer_CoInitializeEx rt m)) eqn:Hinit; simpl.
  - destruct (FAILED (answer_CoInitializeSecurity rt)
              && bool_decide (answer_CoInitializeSecurity rt ≠ RPC_E_TOO_LATE));
      [done|].
    specialize (Hbody (COMInitializer.Build true)).
    destruct (body _) as [calls_body r]. simpl in *. split; [|done].
    change (count_calls is_CoUninitialize
              ([CoInitializeEx m; CoInitializeSecurity] ++ calls_body ++ [CoUninitialize])
            = 1%nat).
    by rewrite !count_calls_app, (count_calls_none _ _ Hbody).
  - destruct (bool_decide (answer_CoInitializeEx rt m ≠ RPC_E_CHANGED_MODE));
      simpl; [done|].
    destruct (FAILED (answer_CoInitializeSecurity rt)
              && bool_decide (answer_CoInitializeSecurity rt ≠ RPC_E_TOO_LATE));
      [done|].
    specialize (Hbody (COMInitializer.Build false)).
    destruct (body _) as [calls_body r]. simpl in *. split; [|done].
    change (count_calls is_CoUninitialize
              ([CoInitializeEx m; CoInitializeSecurity] ++ calls_body ++ [])
            = 0%nat).
    by rewrite !count_calls_app, (count_calls_none _ _ Hbody).
Qed.

Lemma COMInitializer_scope_balanced_witness :
  count_calls is_CoUninitialize
    (COMInitializer.scope runtime_security_refused COINIT_MULTITHREADED
       (fun _ => Interface.Create runtime_security_refused "cimv2")).1 = 1%nat ∧
  count_calls is_CoUninitialize
    (COMInitializer.scope runtime_ok COINIT_MULTITHREADED
       (fun _ => Interface.Create runtime_ok "cimv2")).1 = 1%nat.
Proof.
  split.
  - refine (proj1 (COMInitializer_scope_balanced _ runtime_security_refused
                     COINIT_MULTITHREADED
                     (fun _ => Interface.Create runtime_security_refused "cimv2") _)).
    intros _. vm_compute. repeat constructor.
  - refine (proj1 (COMInitializer_scope_balanced _ runtime_ok COINIT_MULTITHREADED
                     (fun _ => Interface.Create runtime_ok "cimv2") _)).
    intros _. vm_compute. repeat constructor.
Defined.

(** X4.  The constructor ends normally exactly when [CoInitializeEx]
    succeeded or answered [RPC_E_CHANGED_MODE], and [CoInitializeSecurity]
    did not fail or answered [RPC_E_TOO_LATE]; [IsInitialized] then tells
    whether [CoInitializeEx] succeeded; and after a fatal answer of
    [CoInitializeEx] no other call is made. *)
Theorem COMInitializer_new_returns (rt : Runtime) (m : Z) :
  (returns (COMInitializer.new rt m).2 ↔
     (SUCCEEDED (answer_CoInitializeEx rt m) = true ∨
      answer_CoInitializeEx rt m = RPC_E_CHANGED_MODE) ∧
     (FAILED (answer_CoInitializeSecurity rt) = false ∨
      answer_CoInitializeSecurity rt = RPC_E_TOO_LATE)) ∧
  (∀ self, (COMInitializer.new rt m).2 = Return self →
     COMInitializer.IsInitialized self = SUCCEEDED (answer_CoInitializeEx rt m)) ∧
  (SUCCEEDED (answer_CoInitializeEx rt m) = false →
   answer_CoInitializeEx rt m ≠ RPC_E_CHANGED_MODE →
     (COMInitializer.new rt m).1 = [CoInitializeEx m]).
Proof.
  rewrite COMInitializer_new_cases. unfold returns.
  destruct (SUCCEEDED (answer_CoInitializeEx rt m)) eqn:Hinit;
    destruct (FAILED (answer_CoInitializeSecurity rt)) eqn:Hsec;
    destruct (bool_decide_reflect (answer_CoInitializeEx rt m ≠ RPC_E_CHANGED_MODE));
    destruct (bool_decide_reflect (answer_CoInitializeSecurity rt ≠ RPC_E_TOO_LATE));
    simpl; repeat split; intros;
    repeat match goal with
           | H : ∃ _, _ |- _ => destruct H
           | H : _ ∧ _ |- _ => destruct H
           | H : _ ∨ _ |- _ => destruct H
           | H : Return _ = Return _ |- _ => injection H as <-
           end;
    try discriminate; try congruence; try contradiction;
    try (right; apply dec_stable; assumption); eauto.
Qed.

Lemma COMInitializer_new_returns_witness :
  returns (COMInitializer.new runtime_null_cursor COINIT_APARTMENTTHREADED).2 ∧
  (COMInitializer.new runtime_security_refused COINIT_MULTITHREADED).2 =
    Throw (Exception "Failed to initialize COM security (HRESULT: 0x2147942405)").
Proof.
  split.
  - apply (proj1 (COMInitializer_new_returns runtime_null_cursor
                    COINIT_APARTMENTTHREADED)).
    split; right; reflexivity.
  - reflexivity.
Defined.

(** ** The session *)

Lemma string_app_empty_r (s : string) : (s +:+ "")%string = s.
Proof.
  induction s as [|a s IH]; [done|].
  change (String a (s +:+ "") = String a s). by rewrite IH.
Qed.

Lemma c_str_no_NUL (s : string) :
  Forall (fun a => a ≠ Ascii.zero) (String.list_ascii_of_string s) → c_str s = s.
Proof.
  induction s as [|a s IH]; simpl; [done|]. intros [Ha Hs]%Forall_cons.
  destruct (Ascii.eqb_spec a Ascii.zero) as [->|_]; [done|]. by rewrite IH.
Qed.

(** X5.  [Interface::Create] gives a session exactly when the locator is
    created and is not null, and the connection and the proxy blanket both
    succeed; the session then holds the pointers of the first two calls.
    The steps are made in this order and none is made after one that
    failed.  A locator that is null after a successful creation is called
    through.  [ConnectServer] gets the C string at [path.data()] behind the
    prefix, the message of a failed connection quotes the characters of the
    view; the two are the same for a view of a whole C string. *)
Theorem Interface_Create_all_or_nothing (rt : Runtime) (path : string_view) :
  let server := ("\\.\root\" +:+ data_c_str path)%string in
  let hr1 := (answer_CoCreateInstance rt).1 in
  let locator := (answer_CoCreateInstance rt).2 in
  let hr2 := (answer_ConnectServer rt server).1 in
  let hr3 := answer_CoSetProxyBlanket rt in
  ((∃ self, (Interface.Create rt path).2 = Return (Done self)) ↔
     FAILED hr1 = false ∧ is_Some locator ∧ FAILED hr2 = false ∧ FAILED hr3 = false) ∧
  (∀ self, (Interface.Create rt path).2 = Return (Done self) →
     (Interface.Create rt path).1 =
       [CoCreateInstance_WbemLocator; ConnectServer server; CoSetProxyBlanket] ∧
     Interface.locator_ self = locator ∧
     Interface.services_ self = (answer_ConnectServer rt server).2) ∧
  (FAILED hr1 = true →
     Interface.Create rt path =
       ([CoCreateInstance_WbemLocator],
        Throw (Exception ("Failed to create WbemLocator object. " +:+
                          FormatHResultError "Check if WMI service is available" hr1)))) ∧
  (FAILED hr1 = false → locator = None →
     Interface.Create rt path =
       ([CoCreateInstance_WbemLocator], Return (Stuck dangling_pointer))) ∧
  (FAILED hr1 = false → is_Some locator → FAILED hr2 = true →
     Interface.Create rt path =
       ([CoCreateInstance_WbemLocator; ConnectServer server],
        Throw (Exception
                 ("Could not connect to WMI namespace '" +:+ sv_view path +:+ "'. " +:+
                  FormatHResultError "Verify namespace exists and access permissions"
                    hr2)))) ∧
  (sv_rest path = ""%string →
   Forall (fun a => a ≠ Ascii.zero) (String.list_ascii_of_string (sv_view path)) →
     data_c_str path = sv_view path).
Proof.
  intros server hr1 locator hr2 hr3. subst hr1 locator hr2 hr3.
  unfold Interface.Create, Interface.new. fold server.
  generalize (answer_ConnectServer rt server). intros [hr2 services].
  destruct (answer_CoCreateInstance rt) as [hr1 locator].
  run_traced.
  assert (∀ A (x : A), is_Some (Some x)) as Hsome by (intros; eauto).
  assert (¬ is_Some (@None nat)) as Hnone by (intros [? [=]]).
  destruct (FAILED hr1); simpl;
    [|destruct locator as [l|]; simpl;
      [destruct (FAILED hr2); simpl;
        [|destruct (FAILED (answer_CoSetProxyBlanket rt)); simpl]|]];
    (repeat split; intros;
     repeat match goal with
            | H : ∃ _, _ |- _ => destruct H
            | H : _ ∧ _ |- _ => destruct H
            | H : Return (Done _) = Return (Done _) |- _ => injection H as <-
            end;
     try discriminate; try done; eauto;
     try (unfold data_c_str;
          match goal with
          | H : sv_rest _ = _ |- _ => rewrite H, string_app_empty_r
          end; by apply c_str_no_NUL)).
Qed.

Lemma Interface_Create_all_or_nothing_witness :
  (∃ self, (Interface.Create runtime_ok "cimv2").2 = Return (Done self)) ∧
  Interface.Create runtime_null_locator "cimv2" =
    ([CoCreateInstance_WbemLocator], Return (Stuck dangling_pointer)) ∧
  Interface.Create runtime_security_refused view_cimv2_of_longer =
    ([CoCreateInstance_WbemLocator; ConnectServer "\\.\root\cimv2\security"],
     Throw (Exception
              "Could not connect to WMI namespace 'cimv2'. Verify namespace exists and access permissions (HRESULT: 0x2147749902)")) ∧
  data_c_str "cimv2" = "cimv2"%string.
Proof.
  split; [|split; [|split]].
  - apply (proj1 (Interface_Create_all_or_nothing runtime_ok "cimv2")).
    repeat split. by exists 100%nat.
  - apply (proj1 (proj2 (proj2 (proj2 (Interface_Create_all_or_nothing
                                         runtime_null_locator "cimv2")))));
      reflexivity.
  - refine (proj1 (proj2 (proj2 (proj2 (proj2 (Interface_Create_all_or_nothing
                                                runtime_security_refused
                                                view_cimv2_of_longer))))) _ _ _).
    + reflexivity.
    + by exists 100%nat.
    + reflexivity.
  - refine (proj2 (proj2 (proj2 (proj2 (proj2 (Interface_Create_all_or_nothing
                                                runtime_ok "cimv2"))))) _ _).
    + reflexivity.
    + vm_compute. repeat constructor; discriminate.
Defined.

(** X6.  When the service accepts the query and hands out a cursor over [N]
    records, [ExecuteQuery] makes one [ExecQuery] call, in WQL with the
    flags forward-only and return-immediately, and a range-based [for] over
    its result yields the [N] records, each holding the session the query
    was made on. *)
Theorem ExecuteQuery_then_range_for (decode : list wchar_t → string)
    (rt : Runtime) (this : InterfacePtr) (query : list wchar_t) (hr : HRESULT)
    (B p fuel : nat) (recs : list IWbemClassObject)
    (h : gmap nat ListEnumerator) :
  (1 ≤ B)%nat →
  answer_ExecQuery rt "WQL" query 48 = (hr, Some p) → FAILED hr = false →
  h !! p = Some (healthy recs 0) → (length recs < fuel)%nat →
  ∃ result h',
    Interface.ExecuteQuery decode rt this query =
      ([ExecQuery "WQL" query 48], Return result) ∧
    QueryResult.range_for B fuel result h =
      Done (Object.Build this <$> recs, h').
Proof.
  intros HB Hanswer Hok He Hfuel.
  destruct (range_for_list B HB p this _ h fuel He) as (e' & Hrun & _).
  { done. }
  exists (QueryResult.Build this (Some p)), (<[p := e']> h).
  split; [|exact Hrun].
  unfold Interface.ExecuteQuery. run_traced.
  change (Z.lor WBEM_FLAG_FORWARD_ONLY WBEM_FLAG_RETURN_IMMEDIATELY) with 48.
  rewrite Hanswer. simpl. by rewrite Hok.
Qed.

Lemma ExecuteQuery_then_range_for_witness :
  ∃ result h',
    Interface.ExecuteQuery narrow runtime_ok 7%nat
        (wide "SELECT DeviceID FROM Win32_LogicalDisk") =
      ([ExecQuery "WQL" (wide "SELECT DeviceID FROM Win32_LogicalDisk") 48],
       Return result) ∧
    QueryResult.range_for BATCH_SIZE 13 result (heap_of (healthy twelve_disks 0)) =
      Done (Object.Build 7%nat <$> twelve_disks, h').
Proof.
  apply (ExecuteQuery_then_range_for narrow runtime_ok 7%nat
           (wide "SELECT DeviceID FROM Win32_LogicalDisk") WBEM_S_NO_ERROR
           BATCH_SIZE 0%nat 13%nat twelve_disks (heap_of (healthy twelve_disks 0))).
  - unfold BATCH_SIZE. lia.
  - reflexivity.
  - reflexivity.
  - reflexivity.
  - vm_compute. lia.
Defined.

(** X7.  [ExecuteQuery] throws exactly when [ExecQuery] fails and does not
    look at the cursor it was given: when the service reports success with
    a null cursor, the result is handed out, and a range-based [for] over
    it reads index 0 of an empty batch in its first turn. *)
Theorem ExecuteQuery_null_cursor (decode : list wchar_t → string)
    (rt : Runtime) (this : InterfacePtr) (query : list wchar_t)
    (E : Type) (enum : IEnumWbemClassObject E) (B fuel : nat) (h : gmap nat E) :
  (returns (Interface.ExecuteQuery decode rt this query).2 ↔
     FAILED (answer_ExecQuery rt "WQL" query 48).1 = false) ∧
  (FAILED (answer_ExecQuery rt "WQL" query 48).1 = false →
   (answer_ExecQuery rt "WQL" query 48).2 = None →
     (Interface.ExecuteQuery decode rt this query).2 =
       Return (QueryResult.Build this None) ∧
     QueryResult.range_for B (S fuel) (QueryResult.Build this None) h =
       Stuck out_of_range).
Proof.
  unfold Interface.ExecuteQuery, returns. run_traced.
  change (Z.lor WBEM_FLAG_FORWARD_ONLY WBEM_FLAG_RETURN_IMMEDIATELY) with 48.
  destruct (answer_ExecQuery rt "WQL" query 48) as [hr enumerator]. simpl.
  destruct (FAILED hr); simpl; split.
  - split; [intros [? [=]] | done].
  - done.
  - split; eauto.
  - by intros _ ->.
Qed.

Lemma ExecuteQuery_null_cursor_witness :
  (Interface.ExecuteQuery narrow runtime_null_cursor 7%nat (wide "SELECT")).2 =
    Return result_null ∧
  QueryResult.range_for BATCH_SIZE 1 result_null (heap_of (healthy twelve_disks 0)) =
    Stuck out_of_range.
Proof.
  apply (proj2 (ExecuteQuery_null_cursor narrow runtime_null_cursor 7%nat
                  (wide "SELECT") ListEnumerator _ BATCH_SIZE 0
                  (heap_of (healthy twelve_disks 0)))); reflexivity.
Defined.

(** ** The batch iterator over any enumerator: memory safety *)

Section IteratorSafety.
Context {E : Type} `{!IEnumWbemClassObject E}.
Variable B : nat.
Implicit Types (it : QueryResult.Iterator.t) (h : gmap nat E).

Import QueryResult.

Lemma FetchNextBatch_sound it h :
  cursor_alive h it →
  ∃ it' h',
    Iterator.FetchNextBatch B it h = Done (it', h') ∧
    Iterator.iface_ it' = Iterator.iface_ it ∧
    Iterator.enumerator_ it' = Iterator.enumerator_ it ∧
    sound B h' it'.
Proof.
  unfold sound, cursor_alive, well_indexed, owns_batch.
  destruct (Iterator.enumerator_ it) as [p|] eqn:Hp.
  - intros [e He]. rewrite (FetchNextBatch_bound B it h p e Hp He).
    eexists _, _. split; [done|].
    destruct (Next WBEM_INFINITE B e) as [[hr objects] e'] eqn:Hnext. simpl.
    destruct (FAILED hr || bool_decide (length objects = 0%nat)) eqn:Hcond; simpl.
    + rewrite Hp, lookup_insert_eq. repeat split; eauto with lia.
    + rewrite lookup_insert_eq.
      apply orb_false_elim in Hcond as [_ Hcount%bool_decide_eq_false].
      repeat split; eauto.
      * intros _. rewrite length_fmap. lia.
      * apply Forall_fmap, Forall_forall. done.
      * intros Hrespects. specialize (Hrespects e). rewrite Hnext in Hrespects.
        by rewrite length_fmap.
  - intros _. rewrite (FetchNextBatch_null B it h Hp).
    eexists _, _. split; [done|]. simpl. rewrite Hp.
    repeat split; eauto with lia.
Qed.

Lemma operator_inc_sound it h :
  cursor_alive h it → owns_batch it →
  (respects_count B → (length (Iterator.batch_ it) ≤ B)%nat) →
  ∃ it' h',
    Iterator.operator_inc B it h = Done (it', h') ∧
    Iterator.iface_ it' = Iterator.iface_ it ∧
    Iterator.enumerator_ it' = Iterator.enumerator_ it ∧
    sound B h' it'.
Proof.
  intros Halive Howns Hbound. unfold Iterator.operator_inc.
  destruct (Iterator.is_end_ it) eqn:Hend.
  - exists it, h. unfold sound, well_indexed. rewrite Hend. by repeat split.
  - simpl. case_bool_decide as Hlast.
    + set (it1 := Iterator.Build _ _ _ _ _).
      destruct (FetchNextBatch_sound it1 h Halive) as (it' & h' & ? & ? & ? & ?).
      by exists it', h'.
    + eexists _, h. split; [done|]. unfold sound, well_indexed. simpl.
      repeat split; eauto with lia.
Qed.

Lemma loop_sound end_it fuel : ∀ it h,
  Iterator.is_end_ end_it = true → sound B h it →
  match loop B fuel it end_it h with
  | Done (objects, _) =>
      Forall (fun object => Object.iface_ object = Iterator.iface_ it) objects
  | Stuck why => why = out_of_fuel
  end.
Proof.
  induction fuel as [|fuel IH]; intros it h Hsentinel (Halive & Hidx & Howns & Hbound);
    simpl; [done|].
  unfold Iterator.operator_ne, Iterator.operator_eq. rewrite Hsentinel.
  destruct (Iterator.is_end_ it) eqn:Hend; simpl; [done|].
  run_monad. unfold Iterator.operator_deref.
  destruct (lookup_lt_is_Some_2 _ _ (Hidx Hend)) as [object Hobject].
  rewrite Hobject.
  destruct (operator_inc_sound it h Halive Howns Hbound)
    as (it' & h' & -> & Hiface & _ & Hsound).
  specialize (IH it' h' Hsentinel Hsound).
  destruct (loop B fuel it' end_it h') as [[objects h'']|why]; [|done].
  rewrite Hiface in IH. constructor; [|done].
  unfold owns_batch in Howns. rewrite Forall_lookup in Howns. eauto.
Qed.

Lemma begin_sound iface p h :
  is_Some (h !! p) →
  ∃ it h',
    begin B (Build iface (Some p)) h = Done (it, h') ∧
    Iterator.iface_ it = iface ∧ sound B h' it.
Proof.
  intros [e He]. unfold begin, Iterator.new. simpl. run_monad.
  unfold call_Reset. rewrite He. destruct (Reset e) as [hr e0]. simpl.
  set (it0 := Iterator.Build iface (Some p) [] 0 false).
  destruct (FetchNextBatch_sound it0 (<[p := e0]> h)) as (it & h' & -> & ? & _ & ?).
  { unfold cursor_alive. simpl. rewrite lookup_insert_eq. eauto. }
  by exists it, h'.
Qed.

Lemma advance_sound k : ∀ it h,
  sound B h it →
  ∃ it' h', advance B k it h = Done (it', h') ∧ sound B h' it'.
Proof.
  induction k as [|k IH]; intros it h Hsound; simpl.
  - by exists it, h.
  - destruct Hsound as (Halive & _ & Howns & Hbound). run_monad.
    destruct (operator_inc_sound it h Halive Howns Hbound)
      as (it1 & h1 & -> & _ & _ & Hsound1).
    by apply IH.
Qed.
End IteratorSafety.

Lemma ListEnumerator_respects_count (B : nat) :
  respects_count (E := ListEnumerator) B.
Proof.
  intros e. simpl. destruct (broken e); simpl; [lia|].
  rewrite length_take. lia.
Qed.

(** X8.  Provided the remote side never stores more objects than [Next]
    asked for, so that the array [objects[BATCH_SIZE]] holds them, then
    whatever else the enumerator answers, a range-based [for] over a result
    with a cursor never reads the batch out of range and never calls a
    cursor that is not there; and every iterator [operator++] returns has a
    valid index or is exhausted, and a batch within [BATCH_SIZE]. *)
Theorem range_for_memory_safe (E : Type) (enum : IEnumWbemClassObject E)
    (B fuel : nat) (iface : InterfacePtr) (p : nat) (h : gmap nat E) :
  respects_count B → is_Some (h !! p) →
  memory_safe (QueryResult.range_for B fuel (QueryResult.Build iface (Some p)) h) ∧
  (∀ it it' h', cursor_alive h it →
     (length (QueryResult.Iterator.batch_ it) ≤ B)%nat →
     QueryResult.Iterator.operator_inc B it h = Done (it', h') →
     well_indexed it' ∧ (length (QueryResult.Iterator.batch_ it') ≤ B)%nat).
Proof.
  intros Hrespects Hp. split.
  - unfold QueryResult.range_for. run_monad.
    destruct (begin_sound B iface p h Hp) as (it & h' & -> & _ & Hsound).
    pose proof (loop_sound B (QueryResult.Iterator.Build iface None [] 0 true)
                  fuel it h' eq_refl Hsound) as Hloop.
    change (QueryResult.end_ B (QueryResult.Build iface (Some p)) h')
      with (Done (A:=QueryResult.Iterator.t * gmap nat E)
              (QueryResult.Iterator.Build iface None [] 0 true, h')).
    simpl.
    destruct (QueryResult.loop B fuel it _ h') as [[objects h'']|why];
      [done|by subst].
  - intros it it' h' Halive Hbound Hinc.
    unfold QueryResult.Iterator.operator_inc in Hinc.
    destruct (QueryResult.Iterator.is_end_ it) eqn:Hend.
    + injection Hinc as <- <-. unfold well_indexed. split; [congruence|done].
    + simpl in Hinc. case_bool_decide as Hlast.
      * set (it1 := QueryResult.Iterator.Build _ _ _ _ _) in Hinc.
        destruct (FetchNextBatch_sound B it1 h Halive)
          as (it2 & h2 & Hfetch & _ & _ & _ & Hidx & _ & Hbound2).
        rewrite Hfetch in Hinc. injection Hinc as <- <-. auto.
      * injection Hinc as <- <-. unfold well_indexed. simpl. split; [lia|done].
Qed.

Lemma range_for_memory_safe_witness :
  memory_safe (QueryResult.range_for BATCH_SIZE 13 result_at_0
                 (heap_of breaks_after_three)) ∧
  QueryResult.range_for BATCH_SIZE 13 result_at_0 (heap_of breaks_after_three) =
    Done (Object.Build 7%nat <$> take 3 twelve_disks,
          heap_of (Build_ListEnumerator twelve_disks 3 (Some 3%nat))) ∧
  memory_safe (@QueryResult.range_for _ ForwardOnly_enum BATCH_SIZE 13 result_at_0
                 (heap_of (healthy twelve_disks 0))) ∧
  @QueryResult.range_for _ ForwardOnly_enum BATCH_SIZE 13 result_at_0
      (heap_of (healthy twelve_disks 0)) =
    Done (Object.Build 7%nat <$> twelve_disks, heap_of (healthy twelve_disks 12)).
Proof.
  split; [|split; [|split]].
  - apply (proj1 (range_for_memory_safe ListEnumerator _ BATCH_SIZE 13 7%nat 0%nat
                    (heap_of breaks_after_three)
                    (ListEnumerator_respects_count BATCH_SIZE)
                    (mk_is_Some _ _ eq_refl))).
  - vm_compute. reflexivity.
  - apply (proj1 (range_for_memory_safe ListEnumerator ForwardOnly_enum BATCH_SIZE
                    13 7%nat 0%nat (heap_of (healthy twelve_disks 0))
                    (ListEnumerator_respects_count BATCH_SIZE)
                    (mk_is_Some _ _ eq_refl))).
  - vm_compute. reflexivity.
Defined.

(** X9.  Whatever the remote enumerator answers, every object a range-based
    [for] yields holds the session of the query result it came from. *)
Theorem range_for_objects_hold_session (E : Type) (enum : IEnumWbemClassObject E)
    (B fuel : nat) (iface : InterfacePtr) (p : nat) (h h' : gmap nat E)
    (objects : list Object.t) :
  is_Some (h !! p) →
  QueryResult.range_for B fuel (QueryResult.Build iface (Some p)) h =
    Done (objects, h') →
  Forall (fun object => Object.iface_ object = iface) objects.
Proof.
  intros Hp. unfold QueryResult.range_for. run_monad.
  destruct (begin_sound B iface p h Hp) as (it & h1 & -> & Hiface & Hsound).
  pose proof (loop_sound B (QueryResult.Iterator.Build iface None [] 0 true)
                fuel it h1 eq_refl Hsound) as Hloop.
  change (QueryResult.end_ B (QueryResult.Build iface (Some p)) h1)
    with (Done (A:=QueryResult.Iterator.t * gmap nat E)
            (QueryResult.Iterator.Build iface None [] 0 true, h1)).
  simpl. intros Hrun. rewrite Hrun, Hiface in Hloop. exact Hloop.
Qed.

Lemma range_for_objects_hold_session_witness :
  Forall (fun object => Object.iface_ object = 7%nat)
         (Object.Build 7%nat <$> take 3 twelve_disks).
Proof.
  apply (range_for_objects_hold_session ListEnumerator _ BATCH_SIZE 13 7%nat 0%nat
           (heap_of breaks_after_three)
           (heap_of (Build_ListEnumerator twelve_disks 3 (Some 3%nat)))).
  - exact (mk_is_Some _ _ eq_refl).
  - vm_compute. reflexivity.
Defined.

(** X10.  If the remote side never stores more objects than [Next] asks
    for, no batch an iterator holds after [begin()] and any number of
    advances has more than [BATCH_SIZE] objects. *)
Theorem batch_within_BATCH_SIZE (E : Type) (enum : IEnumWbemClassObject E)
    (B k : nat) (iface : InterfacePtr) (p : nat) (h h1 h' : gmap nat E)
    (it it' : QueryResult.Iterator.t) :
  respects_count B → is_Some (h !! p) →
  QueryResult.begin B (QueryResult.Build iface (Some p)) h = Done (it, h1) →
  QueryResult.advance B k it h1 = Done (it', h') →
  (length (QueryResult.Iterator.batch_ it') ≤ B)%nat.
Proof.
  intros Hrespects Hp Hbegin Hadvance.
  destruct (begin_sound B iface p h Hp) as (it0 & h0 & Hbegin' & _ & Hsound).
  rewrite Hbegin' in Hbegin. injection Hbegin as <- <-.
  destruct (advance_sound B k it0 h0 Hsound) as (it1 & h2 & Hadvance' & Hsound').
  rewrite Hadvance' in Hadvance. injection Hadvance as <- <-.
  by apply Hsound'.
Qed.

Lemma batch_within_BATCH_SIZE_witness :
  (length (Object.Build 7%nat <$> drop 10 twelve_disks) ≤ BATCH_SIZE)%nat.
Proof.
  refine (batch_within_BATCH_SIZE ListEnumerator _ BATCH_SIZE 10 7%nat 0%nat
            (heap_of (healthy twelve_disks 0))
            (heap_of (healthy twelve_disks 10))
            (heap_of (healthy twelve_disks 12))
            (QueryResult.Iterator.Build 7%nat (Some 0%nat)
               (Object.Build 7%nat <$> take 10 twelve_disks) 0 false)
            (QueryResult.Iterator.Build 7%nat (Some 0%nat)
               (Object.Build 7%nat <$> drop 10 twelve_disks) 0 false)
            _ _ _ _).
  - apply ListEnumerator_respects_count.
  - exact (mk_is_Some _ _ eq_refl).
  - vm_compute. reflexivity.
  - vm_compute. reflexivity.
Defined.

(** ** The position of the cursor *)

Lemma moved_forward_refl (e : ListEnumerator) : moved_forward e e.
Proof. unfold moved_forward. by repeat split. Qed.

Lemma moved_forward_available (e e' : ListEnumerator) : moved_forward e e' → available e' = available e.
Proof. unfold available. intros (-> & -> & _). done. Qed.

Lemma moved_forward_trans (e1 e2 e3 : ListEnumerator) :
  moved_forward e1 e2 → moved_forward e2 e3 → moved_forward e1 e3.
Proof.
  intros H12 H23. pose proof (moved_forward_available _ _ H12) as Havailable.
  destruct H12 as (? & ? & ? & ?), H23 as (? & ? & ? & Hbound).
  rewrite Havailable in Hbound.
  unfold moved_forward. repeat split; try congruence; lia.
Qed.

Section ListCursorFacts.
Variable B : nat.
Hypothesis B_pos : (1 ≤ B)%nat.
Variable p : nat.
Implicit Types (it : QueryResult.Iterator.t) (e : ListEnumerator)
  (h : gmap nat ListEnumerator).

Import QueryResult.

(** One advance moves the cursor forward, and an advance that exhausts the
    iterator leaves the cursor with nothing to deliver. *)
Lemma operator_inc_cursor it e h :
  Iterator.enumerator_ it = Some p → Iterator.is_end_ it = false →
  h !! p = Some e →
  ∃ it' e',
    Iterator.operator_inc B it h = Done (it', <[p := e']> h) ∧
    Iterator.enumerator_ it' = Some p ∧
    moved_forward e e' ∧
    (Iterator.is_end_ it' = true → (length (available e) ≤ position e')%nat).
Proof.
  intros Hp Hend He. unfold Iterator.operator_inc. rewrite Hend. simpl.
  case_bool_decide as Hlast.
  - set (it1 := Iterator.Build _ _ _ _ _).
    rewrite (FetchNextBatch_bound B it1 h p e Hp He).
    eexists _, _. split; [done|]. simpl.
    split; [by destruct (_ || _)|].
    destruct (broken e) eqn:Hbroken; simpl.
    + split; [apply moved_forward_refl|]. intros _.
      apply (broken_nothing_left B B_pos) in Hbroken.
      apply (f_equal length) in Hbroken.
      rewrite length_drop in Hbroken. simpl in Hbroken. lia.
    + set (objects := take B (drop (position e) (available e))).
      assert (FAILED (if bool_decide (length objects = B)
                      then WBEM_S_NO_ERROR else WBEM_S_FALSE) = false) as ->
        by by case_bool_decide.
      simpl. split.
      * unfold moved_forward. simpl. repeat split; [lia|].
        intros Hpos. subst objects. rewrite length_take, length_drop. lia.
      * case_bool_decide as Hcount; simpl; [|done].
        intros _. apply nil_length_inv, (take_nil_inv B B_pos) in Hcount.
        apply (f_equal length) in Hcount.
        rewrite length_drop in Hcount. simpl in Hcount. lia.
  - exists (Iterator.Build (Iterator.iface_ it) (Iterator.enumerator_ it)
              (Iterator.batch_ it) (S (Iterator.current_index_ it)) false), e.
    rewrite insert_id by done. split; [done|]. split; [done|].
    split; [apply moved_forward_refl|]. done.
Qed.

(** A pass that comes to its end leaves the cursor at the end of what it
    can deliver. *)
Lemma loop_cursor end_it fuel : ∀ it e h objects h',
  Iterator.is_end_ end_it = true →
  Iterator.enumerator_ it = Some p → h !! p = Some e →
  (Iterator.is_end_ it = true → (length (available e) ≤ position e)%nat) →
  loop B fuel it end_it h = Done (objects, h') →
  ∃ e', h' = <[p := e']> h ∧ moved_forward e e' ∧
        (length (available e) ≤ position e')%nat.
Proof.
  induction fuel as [|fuel IH]; intros it e h objects h' Hsentinel Hp He Hdrained;
    simpl; [done|].
  unfold Iterator.operator_ne, Iterator.operator_eq. rewrite Hsentinel.
  destruct (Iterator.is_end_ it) eqn:Hend; simpl.
  - intros [= <- <-]. exists e. rewrite insert_id by done.
    split; [done|]. split; [apply moved_forward_refl | auto].
  - run_monad. destruct (Iterator.operator_deref it) as [object|]; [|done].
    destruct (operator_inc_cursor it e h Hp Hend He)
      as (it1 & e1 & -> & Hp1 & Hmoved & Hdrained1).
    destruct (loop B fuel it1 end_it (<[p := e1]> h)) as [[rest h2]|] eqn:Hloop;
      [|done].
    intros [= <- <-].
    pose proof (moved_forward_available _ _ Hmoved) as Havailable.
    destruct (IH it1 e1 (<[p := e1]> h) rest h2 Hsentinel Hp1
                (lookup_insert_eq _ _ _)) as (e2 & -> & Hmoved2 & Hdrained2).
    { by rewrite Havailable. }
    { done. }
    exists e2. rewrite insert_insert_eq. split; [done|].
    split; [by eapply moved_forward_trans|]. by rewrite <- Havailable.
Qed.

Lemma insert_same_inj h (e1 e2 : ListEnumerator) :
  <[p := e1]> h = <[p := e2]> h → e1 = e2.
Proof.
  intros Heq. apply (f_equal (fun m => m !! p)) in Heq.
  rewrite !lookup_insert_eq in Heq. congruence.
Qed.

Lemma at_end_eq e e' :
  moved_forward e e' → (position e ≤ length (available e))%nat →
  (length (available e) ≤ position e')%nat →
  e' = Build_ListEnumerator (records e) (length (available e)) (fault_after e).
Proof.
  intros (Hrecords & Hfault & _ & Hbound) Hpos Hdrained.
  specialize (Hbound Hpos). destruct e' as [recs' pos' fault']. simpl in *.
  subst. f_equal. lia.
Qed.

(** The constructor on a cursor: the iterator has before it what the
    cursor had not delivered, and the cursor moved forward by one batch. *)
Lemma new_list iface e h :
  h !! p = Some e →
  ∃ it e1,
    Iterator.new B iface (Some p) false h = Done (it, <[p := e1]> h) ∧
    Iterator.enumerator_ it = Some p ∧ Iterator.iface_ it = iface ∧
    well_indexed it ∧
    remaining it e1 = Object.Build iface <$> drop (position e) (available e) ∧
    moved_forward e e1 ∧
    (Iterator.is_end_ it = true → (length (available e) ≤ position e1)%nat).
Proof.
  intros He. unfold Iterator.new. simpl.
  set (it0 := Iterator.Build iface (Some p) [] 0 false).
  destruct (FetchNextBatch_list B B_pos p it0 e h eq_refl eq_refl He)
    as (it & e1 & Hfetch & (Hp & Hiface & _ & _ & Hidx) & Hrem).
  exists it, e1. rewrite Hfetch. do 5 (split; [done|]).
  rewrite (FetchNextBatch_bound B it0 h p e eq_refl He) in Hfetch.
  injection Hfetch as Hit Hheap. apply insert_same_inj in Hheap.
  subst e1 it. clear Hp Hiface Hidx Hrem. simpl.
  destruct (broken e) eqn:Hbroken; simpl.
  - split; [apply moved_forward_refl|]. intros _.
    apply (broken_nothing_left B B_pos) in Hbroken.
    apply (f_equal length) in Hbroken.
    rewrite length_drop in Hbroken. simpl in Hbroken. lia.
  - set (objects := take B (drop (position e) (available e))).
    assert (FAILED (if bool_decide (length objects = B)
                    then WBEM_S_NO_ERROR else WBEM_S_FALSE) = false) as ->
      by by case_bool_decide.
    simpl. split.
    + unfold moved_forward. simpl. repeat split; [lia|].
      intros Hpos. subst objects. rewrite length_take, length_drop. lia.
    + case_bool_decide as Hcount; simpl; [|done].
      intros _. apply nil_length_inv, (take_nil_inv B B_pos) in Hcount.
      apply (f_equal length) in Hcount.
      rewrite length_drop in Hcount. simpl in Hcount. lia.
Qed.

(** A pass that starts at the constructor: it yields what the cursor had
    not delivered and leaves the cursor at the end. *)
Lemma pass_from_cursor iface e h fuel :
  h !! p = Some e → (position e ≤ length (available e))%nat →
  (length (available e) - position e < fuel)%nat →
  ∃ it h1,
    Iterator.new B iface (Some p) false h = Done (it, h1) ∧
    loop B fuel it (Iterator.Build iface None [] 0 true) h1 =
      Done (Object.Build iface <$> drop (position e) (available e),
            <[p := Build_ListEnumerator (records e) (length (available e))
                     (fault_after e)]> h).
Proof.
  intros He Hpos Hfuel.
  destruct (new_list iface e h He)
    as (it & e1 & Hnew & Hp & Hiface & Hidx & Hrem & Hmoved & Hdrained).
  exists it, (<[p := e1]> h). split; [done|].
  pose proof (moved_forward_available _ _ Hmoved) as Havailable.
  set (end_it := Iterator.Build iface None [] 0 true).
  destruct (loop_list B B_pos p end_it _ fuel it e1 (<[p := e1]> h) eq_refl Hp Hidx
              (lookup_insert_eq _ _ _) Hrem) as (e2 & Hloop & _).
  { rewrite length_fmap, length_drop. lia. }
  assert (Iterator.is_end_ it = true →
          (length (available e1) ≤ position e1)%nat) as Hdrained1
    by by rewrite Havailable.
  destruct (loop_cursor end_it fuel it e1 (<[p := e1]> h) _ _ eq_refl Hp
              (lookup_insert_eq _ _ _) Hdrained1 Hloop)
    as (e3 & Hheap & Hmoved3 & Hdrained3).
  apply insert_same_inj in Hheap. subst e3.
  rewrite Hloop, insert_insert_eq. do 3 f_equal.
  apply at_end_eq; [by eapply moved_forward_trans | done |].
  by rewrite <- Havailable.
Qed.

(** The loop from any iterator that is bound to the cursor. *)
Lemma loop_exact iface it e h fuel :
  Iterator.enumerator_ it = Some p → well_indexed it → h !! p = Some e →
  (position e ≤ length (available e))%nat →
  (Iterator.is_end_ it = true → (length (available e) ≤ position e)%nat) →
  (length (remaining it e) < fuel)%nat →
  loop B fuel it (Iterator.Build iface None [] 0 true) h =
    Done (remaining it e, <[p := at_end e]> h).
Proof.
  intros Hp Hidx He Hpos Hdrained Hfuel.
  set (end_it := Iterator.Build iface None [] 0 true).
  destruct (loop_list B B_pos p end_it _ fuel it e h eq_refl Hp Hidx He eq_refl Hfuel)
    as (e2 & Hloop & _).
  destruct (loop_cursor end_it fuel it e h _ _ eq_refl Hp He Hdrained Hloop)
    as (e3 & Hheap & Hmoved & Hdrained3).
  apply insert_same_inj in Hheap. subst e3.
  rewrite Hloop. do 3 f_equal. by apply at_end_eq.
Qed.

Lemma drop_min {A} (l : list A) : drop (B `min` length l) l = drop B l.
Proof.
  destruct (decide (B ≤ length l)%nat).
  - by rewrite Nat.min_l.
  - rewrite Nat.min_r by lia. rewrite drop_all. symmetry. apply drop_ge. lia.
Qed.

(** [begin()], exactly. *)
Lemma begin_exact iface e h :
  h !! p = Some e →
  begin B (Build iface (Some p)) h =
    Done (first_iterator B iface p e, <[p := after_first_batch B e]> h).
Proof.
  intros He. unfold begin, Iterator.new. simpl. run_monad.
  unfold call_Reset. rewrite He. simpl.
  set (e0 := Build_ListEnumerator (records e) 0 (fault_after e)).
  set (it0 := Iterator.Build iface (Some p) [] 0 false).
  rewrite (FetchNextBatch_bound B it0 (<[p := e0]> h) p e0 eq_refl
             (lookup_insert_eq _ _ _)).
  rewrite insert_insert_eq. unfold first_iterator, after_first_batch.
  assert (available e0 = available e) as Havailable by done.
  simpl. destruct (broken e0) eqn:Hbroken; simpl.
  - apply (broken_nothing_left B B_pos) in Hbroken.
    change (available e = []) in Hbroken. rewrite Hbroken. simpl.
    rewrite Nat.min_0_r, take_nil. reflexivity.
  - rewrite Havailable, drop_0.
    assert (FAILED (if bool_decide (length (take B (available e)) = B)
                    then WBEM_S_NO_ERROR else WBEM_S_FALSE) = false) as ->
      by by case_bool_decide.
    simpl. rewrite length_take.
    destruct (available e) as [|r l] eqn:Hl; simpl.
    + rewrite Nat.min_0_r, take_nil. reflexivity.
    + destruct B as [|B']; [lia|]. reflexivity.
Qed.

Lemma remaining_first_iterator iface e :
  remaining (first_iterator B iface p e) (after_first_batch B e) =
    Object.Build iface <$> available e.
Proof.
  unfold remaining, first_iterator, after_first_batch. simpl.
  case_bool_decide as Hnil; [by rewrite Hnil|].
  change (available (Build_ListEnumerator (records e) _ (fault_after e)))
    with (available e).
  by rewrite drop_0, drop_min, <- fmap_app, take_drop.
Qed.

Lemma remaining_first_iterator_at_end iface e :
  remaining (first_iterator B iface p e) (at_end e) =
    Object.Build iface <$> take B (available e).
Proof.
  unfold remaining, first_iterator, at_end. simpl.
  case_bool_decide as Hnil; [by rewrite Hnil, take_nil|].
  change (available (Build_ListEnumerator (records e) _ (fault_after e)))
    with (available e).
  by rewrite drop_0, drop_all, fmap_nil, app_nil_r.
Qed.

Lemma first_iterator_well_indexed iface e : well_indexed (first_iterator B iface p e).
Proof.
  unfold well_indexed, first_iterator. simpl.
  intros Hnil%bool_decide_eq_false. rewrite length_fmap, length_take.
  destruct (available e); [done|]. simpl. lia.
Qed.
End ListCursorFacts.

(** X11.  [begin()] does not wait for the first dereference.  Once [Reset]
    has left the cursor at its start, because it moved the cursor back or
    because the cursor was fresh and [Reset] left it alone, and whatever
    status it answered, then when [begin()] returns the first batch of
    [min B N] records is in the iterator and the cursor stands behind it;
    the iterator is exhausted from the start exactly when there is no
    record. *)
Theorem begin_fetches_first_batch
    (reset : ListEnumerator → HRESULT * ListEnumerator) (B N : nat)
    (iface : InterfacePtr) (p : nat) (recs : list IWbemClassObject) (pos : nat)
    (h : gmap nat ListEnumerator) :
  (1 ≤ B)%nat → length recs = N → h !! p = Some (healthy recs pos) →
  (reset (healthy recs pos)).2 = healthy recs 0 →
  ∃ it,
    @QueryResult.begin _ (ListEnumerator_with_Reset reset) B
        (QueryResult.Build iface (Some p)) h =
      Done (it, <[p := healthy recs (B `min` N)]> h) ∧
    QueryResult.Iterator.batch_ it = Object.Build iface <$> take B recs ∧
    QueryResult.Iterator.current_index_ it = 0%nat ∧
    QueryResult.Iterator.is_end_ it = bool_decide (N = 0)%nat.
Proof.
  intros HB HN He Hreset. exists (first_iterator B iface p (healthy recs pos)).
  rewrite (begin_rewound reset B iface p _ h He Hreset).
  rewrite (begin_exact B HB p iface _ h He). subst N.
  split; [done|]. split; [done|]. split; [done|].
  unfold first_iterator, available. simpl. apply bool_decide_ext.
  split; [by intros -> | apply nil_length_inv].
Qed.

Lemma begin_fetches_first_batch_witness :
  (∃ it,
     QueryResult.begin BATCH_SIZE result_at_0 (heap_of (healthy twelve_disks 12)) =
       Done (it, <[0%nat := healthy twelve_disks (BATCH_SIZE `min` 12)]>
                   (heap_of (healthy twelve_disks 12))) ∧
     QueryResult.Iterator.batch_ it =
       Object.Build 7%nat <$> take BATCH_SIZE twelve_disks ∧
     QueryResult.Iterator.current_index_ it = 0%nat ∧
     QueryResult.Iterator.is_end_ it = bool_decide (12 = 0)%nat) ∧
  (∃ it,
     @QueryResult.begin _ ForwardOnly_enum BATCH_SIZE result_at_0
         (heap_of (healthy twelve_disks 0)) =
       Done (it, <[0%nat := healthy twelve_disks (BATCH_SIZE `min` 12)]>
                   (heap_of (healthy twelve_disks 0))) ∧
     QueryResult.Iterator.batch_ it =
       Object.Build 7%nat <$> take BATCH_SIZE twelve_disks ∧
     QueryResult.Iterator.current_index_ it = 0%nat ∧
     QueryResult.Iterator.is_end_ it = bool_decide (12 = 0)%nat).
Proof.
  split.
  - apply (begin_fetches_first_batch (@Reset _ ListEnumerator_enum) BATCH_SIZE 12
             7%nat 0%nat twelve_disks 12 (heap_of (healthy twelve_disks 12))).
    + unfold BATCH_SIZE. lia.
    + reflexivity.
    + reflexivity.
    + reflexivity.
  - apply (begin_fetches_first_batch (@Reset _ ForwardOnly_enum) BATCH_SIZE 12
             7%nat 0%nat twelve_disks 0 (heap_of (healthy twelve_disks 0))).
    + unfold BATCH_SIZE. lia.
    + reflexivity.
    + reflexivity.
    + reflexivity.
Defined.

(** X12.  A range-based [for] that runs to its end takes everything the
    cursor can deliver: afterwards the cursor stands at the end, also when
    the pass ended on a broken connection. *)
Theorem range_for_leaves_cursor_at_end (B : nat) (iface : InterfacePtr) (p : nat)
    (e : ListEnumerator) (fuel : nat) (h : gmap nat ListEnumerator) :
  (1 ≤ B)%nat → h !! p = Some e → (length (available e) < fuel)%nat →
  QueryResult.range_for B fuel (QueryResult.Build iface (Some p)) h =
    Done (Object.Build iface <$> available e, <[p := at_end e]> h) ∧
  position (at_end e) = length (available e).
Proof.
  intros HB He Hfuel. split; [|done].
  unfold QueryResult.range_for. run_monad.
  rewrite (begin_exact B HB p iface e h He). simpl.
  rewrite (loop_exact B HB p iface (first_iterator B iface p e)
             (after_first_batch B e) (<[p := after_first_batch B e]> h) fuel).
  - rewrite remaining_first_iterator by done. by rewrite insert_insert_eq.
  - done.
  - by apply first_iterator_well_indexed.
  - apply lookup_insert_eq.
  - apply Nat.le_min_r.
  - unfold first_iterator. simpl. intros Hnil%bool_decide_eq_true.
    change (available (after_first_batch B e)) with (available e).
    rewrite Hnil. simpl. lia.
  - rewrite remaining_first_iterator by done. by rewrite length_fmap.
Qed.

Lemma range_for_leaves_cursor_at_end_witness :
  QueryResult.range_for BATCH_SIZE 13 result_at_0 (heap_of breaks_after_three) =
    Done (Object.Build 7%nat <$> available breaks_after_three,
          <[0%nat := at_end breaks_after_three]> (heap_of breaks_after_three)) ∧
  position (at_end breaks_after_three) = length (available breaks_after_three).
Proof.
  apply (range_for_leaves_cursor_at_end BATCH_SIZE 7%nat 0%nat breaks_after_three
           13 (heap_of breaks_after_three)).
  - unfold BATCH_SIZE. lia.
  - reflexivity.
  - vm_compute. lia.
Defined.

(** Two calls of [begin()] and then two loops, over the list cursor. *)
Lemma begin_twice_list (B : nat) (iface : InterfacePtr)
    (p : nat) (e : ListEnumerator) (fuel : nat) (h : gmap nat ListEnumerator) :
  (1 ≤ B)%nat → h !! p = Some e → (length (available e) < fuel)%nat →
  begin_twice_then_iterate B fuel (QueryResult.Build iface (Some p)) h =
    Done ((Object.Build iface <$> available e,
           Object.Build iface <$> take B (available e)),
          <[p := at_end e]> h).
Proof.
  intros HB He Hfuel. unfold begin_twice_then_iterate. run_monad.
  rewrite (begin_exact B HB p iface e h He).
  rewrite (begin_exact B HB p iface (after_first_batch B e)
             (<[p := after_first_batch B e]> h) (lookup_insert_eq _ _ _)).
  rewrite insert_insert_eq. simpl.
  change (first_iterator B iface p (after_first_batch B e))
    with (first_iterator B iface p e).
  change (after_first_batch B (after_first_batch B e)) with (after_first_batch B e).
  rewrite (loop_exact B HB p iface (first_iterator B iface p e)
             (after_first_batch B e) (<[p := after_first_batch B e]> h) fuel).
  2: done.
  2: by apply first_iterator_well_indexed.
  2: apply lookup_insert_eq.
  2: apply Nat.le_min_r.
  2: { unfold first_iterator. simpl. intros Hnil%bool_decide_eq_true.
       change (available (after_first_batch B e)) with (available e).
       rewrite Hnil. simpl. lia. }
  2: { rewrite remaining_first_iterator by done. by rewrite length_fmap. }
  rewrite insert_insert_eq.
  change (at_end (after_first_batch B e)) with (at_end e).
  rewrite (loop_exact B HB p iface (first_iterator B iface p e)
             (at_end e) (<[p := at_end e]> h) fuel).
  2: done.
  2: by apply first_iterator_well_indexed.
  2: apply lookup_insert_eq.
  2: done.
  2: done.
  2: { rewrite remaining_first_iterator_at_end, length_fmap, length_take. lia. }
  rewrite insert_insert_eq, remaining_first_iterator,
    remaining_first_iterator_at_end by done.
  done.
Qed.

(** X13.  The iterators of two calls of [begin()] share the cursor.  When
    [Reset] moves the cursor back to its start, and both iterators are
    created first and then consumed one after the other, the first yields
    every record and the second only the batch it fetched when it was
    created. *)
Theorem begin_twice_second_gets_one_batch
    (reset : ListEnumerator → HRESULT * ListEnumerator) (B : nat)
    (iface : InterfacePtr) (p : nat) (e : ListEnumerator) (fuel : nat)
    (h : gmap nat ListEnumerator) :
  rewinds reset →
  (1 ≤ B)%nat → h !! p = Some e → (length (available e) < fuel)%nat →
  @begin_twice_then_iterate _ (ListEnumerator_with_Reset reset) B fuel
      (QueryResult.Build iface (Some p)) h =
    Done ((Object.Build iface <$> available e,
           Object.Build iface <$> take B (available e)),
          <[p := at_end e]> h).
Proof.
  intros Hrewinds HB He Hfuel.
  rewrite <- (begin_twice_list B iface p e fuel h HB He Hfuel).
  unfold begin_twice_then_iterate. run_monad.
  rewrite (begin_rewound reset B iface p e h He (Hrewinds e)).
  rewrite (begin_exact B HB p iface e h He).
  rewrite (begin_rewound reset B iface p (after_first_batch B e)
             (<[p := after_first_batch B e]> h) (lookup_insert_eq _ _ _)
             (Hrewinds _)).
  rewrite (begin_exact B HB p iface (after_first_batch B e)
             (<[p := after_first_batch B e]> h) (lookup_insert_eq _ _ _)).
  simpl. rewrite !loop_with_Reset.
  destruct (QueryResult.loop B fuel _ _ _) as [[first h1]|]; [|done].
  by rewrite loop_with_Reset.
Qed.

Lemma begin_twice_second_gets_one_batch_witness :
  begin_twice_then_iterate BATCH_SIZE 13 result_at_0
      (heap_of (healthy twelve_disks 7)) =
    Done ((Object.Build 7%nat <$> twelve_disks,
           Object.Build 7%nat <$> take BATCH_SIZE twelve_disks),
          <[0%nat := at_end (healthy twelve_disks 7)]>
            (heap_of (healthy twelve_disks 7))).
Proof.
  apply (begin_twice_second_gets_one_batch (@Reset _ ListEnumerator_enum)
           BATCH_SIZE 7%nat 0%nat (healthy twelve_disks 7)
           13 (heap_of (healthy twelve_disks 7))).
  - intros e. reflexivity.
  - unfold BATCH_SIZE. lia.
  - reflexivity.
  - vm_compute. lia.
Defined.

(** X14.  After [k] advances from [begin()] the iterator points at record
    number [k] of the result. *)
Theorem advance_then_dereference (B k : nat) (iface : InterfacePtr) (p : nat)
    (recs : list IWbemClassObject) (r : IWbemClassObject) (pos : nat)
    (h : gmap nat ListEnumerator) :
  (1 ≤ B)%nat → h !! p = Some (healthy recs pos) → recs !! k = Some r →
  ∃ it h1 it' h',
    QueryResult.begin B (QueryResult.Build iface (Some p)) h = Done (it, h1) ∧
    QueryResult.advance B k it h1 = Done (it', h') ∧
    QueryResult.Iterator.operator_deref it' = Done (Object.Build iface r).
Proof.
  intros HB He Hk.
  destruct (begin_list B HB p iface _ h He)
    as (it & e1 & Hbegin & Hp & Hiface & _ & _ & Hidx & Hrem).
  destruct (advance_list B HB p k it e1 (<[p := e1]> h) Hp Hidx
              (lookup_insert_eq _ _ _))
    as (it' & e' & Hadvance & (Hp' & Hiface' & _ & _ & Hidx') & Hrem').
  exists it, (<[p := e1]> h), it', (<[p := e']> (<[p := e1]> h)).
  split; [done|]. split; [done|].
  rewrite Hrem in Hrem'. unfold available in Hrem'. simpl in Hrem'.
  assert ((Object.Build iface <$> recs) !! k = Some (Object.Build iface r)) as Hk'
    by by rewrite list_lookup_fmap, Hk.
  rewrite (drop_S _ _ _ Hk') in Hrem'.
  destruct (QueryResult.Iterator.is_end_ it') eqn:Hend.
  { by rewrite remaining_exhausted in Hrem'. }
  destruct (operator_inc_list B HB p it' e' (<[p := e']> (<[p := e1]> h)) Hp' Hend
              Hidx' (lookup_insert_eq _ _ _))
    as (object & it2 & e2 & Hderef & _ & _ & Hsplit).
  rewrite Hsplit in Hrem'. injection Hrem' as -> _. done.
Qed.

Lemma advance_then_dereference_witness :
  ∃ it h1 it' h',
    QueryResult.begin BATCH_SIZE result_at_0 (heap_of (healthy twelve_disks 0)) =
      Done (it, h1) ∧
    QueryResult.advance BATCH_SIZE 10 it h1 = Done (it', h') ∧
    QueryResult.Iterator.operator_deref it' = Done (Object.Build 7%nat (disk "K:")).
Proof.
  apply (advance_then_dereference BATCH_SIZE 10 7%nat 0%nat twelve_disks (disk "K:")
           0 (heap_of (healthy twelve_disks 0))).
  - unfold BATCH_SIZE. lia.
  - reflexivity.
  - reflexivity.
Defined.

(** ** A cursor that cannot be reset *)

Lemma loop_ForwardOnly (B fuel : nat) : ∀ (it end_it : QueryResult.Iterator.t)
    (h : gmap nat ListEnumerator),
  @QueryResult.loop _ ForwardOnly_enum B fuel it end_it h =
  @QueryResult.loop _ ListEnumerator_enum B fuel it end_it h.
Proof.
  induction fuel as [|fuel IH]; intros it end_it h; simpl; [done|].
  destruct (QueryResult.Iterator.operator_ne it end_it); [|done].
  run_monad. destruct (QueryResult.Iterator.operator_deref it); [|done].
  change (@QueryResult.Iterator.operator_inc _ ForwardOnly_enum B it h)
    with (@QueryResult.Iterator.operator_inc _ ListEnumerator_enum B it h).
  destruct (QueryResult.Iterator.operator_inc B it h) as [[it' h']|]; [|done].
  by rewrite IH.
Qed.

(** A pass over a cursor that refuses [Reset] starts where the cursor
    stands. *)
Lemma range_for_ForwardOnly (B : nat) (iface : InterfacePtr) (p : nat)
    (e : ListEnumerator) (fuel : nat) (h : gmap nat ListEnumerator) :
  (1 ≤ B)%nat → h !! p = Some e → (position e ≤ length (available e))%nat →
  (length (available e) - position e < fuel)%nat →
  @QueryResult.range_for _ ForwardOnly_enum B fuel
      (QueryResult.Build iface (Some p)) h =
    Done (Object.Build iface <$> drop (position e) (available e),
          <[p := at_end e]> h).
Proof.
  intros HB He Hpos Hfuel.
  destruct (pass_from_cursor B HB p iface e h fuel He Hpos Hfuel)
    as (it & h1 & Hnew & Hloop).
  unfold QueryResult.range_for, QueryResult.begin. simpl. run_monad.
  unfold call_Reset. rewrite He. simpl. rewrite insert_id by done.
  change (@QueryResult.Iterator.new _ ForwardOnly_enum B iface (Some p) false h)
    with (@QueryResult.Iterator.new _ ListEnumerator_enum B iface (Some p) false h).
  rewrite Hnew. simpl. by rewrite loop_ForwardOnly.
Qed.

(** X15.  [begin()] does not look at the status of [Reset].  Over a fresh
    cursor that refuses [Reset] and stays where it is, the first pass yields
    all records and the second pass yields none, without any error. *)
Theorem ForwardOnly_second_pass_is_empty (B : nat) (iface : InterfacePtr) (p : nat)
    (recs : list IWbemClassObject) (fuel : nat) (h : gmap nat ListEnumerator) :
  (1 ≤ B)%nat → h !! p = Some (healthy recs 0) → (length recs < fuel)%nat →
  @two_passes _ ForwardOnly_enum B fuel (QueryResult.Build iface (Some p)) h =
    Done ((Object.Build iface <$> recs, []),
          <[p := healthy recs (length recs)]> h).
Proof.
  intros HB He Hfuel. unfold two_passes. run_monad.
  rewrite (range_for_ForwardOnly B iface p (healthy recs 0) fuel h HB He).
  2: { simpl. lia. }
  2: { unfold available. simpl. lia. }
  rewrite (range_for_ForwardOnly B iface p (at_end (healthy recs 0)) fuel
             (<[p := at_end (healthy recs 0)]> h) HB (lookup_insert_eq _ _ _)).
  2: done.
  2: { unfold available. simpl. lia. }
  rewrite insert_insert_eq. unfold at_end, available. simpl.
  by rewrite drop_all.
Qed.

Lemma ForwardOnly_second_pass_is_empty_witness :
  @two_passes _ ForwardOnly_enum BATCH_SIZE 13 result_at_0
      (heap_of (healthy twelve_disks 0)) =
    Done ((Object.Build 7%nat <$> twelve_disks, []),
          <[0%nat := healthy twelve_disks (length twelve_disks)]>
            (heap_of (healthy twelve_disks 0))).
Proof.
  apply (ForwardOnly_second_pass_is_empty BATCH_SIZE 7%nat 0%nat twelve_disks 13
           (heap_of (healthy twelve_disks 0))).
  - unfold BATCH_SIZE. lia.
  - reflexivity.
  - vm_compute. lia.
Defined.

(** ** More on the value converter *)

Lemma decoded_non_null_length (decode : list wchar_t → string) (elements : list BSTR) :
  (length (decoded_non_null decode elements) +
     length (List.filter is_null_BSTR elements))%nat = length elements.
Proof.
  unfold decoded_non_null. rewrite length_fmap.
  induction elements as [|[w|] elements IH]; [done| |].
  - change (S (length (omap id elements) +
               length (List.filter is_null_BSTR elements)) = S (length elements)).
    lia.
  - change ((length (omap id elements) +
             S (length (List.filter is_null_BSTR elements)))%nat =
            S (length elements)).
    lia.
Qed.

Lemma decoded_non_null_all (decode : list wchar_t → string) (ws : list (list wchar_t)) :
  decoded_non_null decode (Some <$> ws) = decode <$> ws.
Proof.
  unfold decoded_non_null. f_equal.
  induction ws as [|w ws IH]; [done|]. simpl. f_equal. exact IH.
Qed.

(** X16.  When the conversion to [std::vector<std::string>] gives a vector,
    the value was a string array, the vector and the null elements together
    are as many as the array has elements, and an array without null
    elements is converted element by element. *)
Theorem ConvertVariant_vector_string_inversion (decode : list wchar_t → string)
    (v : CComVariant) (result : list string) :
  ConvertVariant decode T_vector_string v = Return (Some result) →
  ∃ sa,
    vt v = Z.lor VT_ARRAY VT_BSTR ∧ parray v = Some sa ∧ sa_vartype sa = VT_BSTR ∧
    (length result + length (List.filter is_null_BSTR (pvData sa)))%nat =
      length (pvData sa) ∧
    (∀ ws, pvData sa = Some <$> ws → result = decode <$> ws).
Proof.
  simpl. unfold ConvertVariant_vector_string.
  case_bool_decide as Hvt; [done|].
  destruct (Attach (parray v)) as [sa|] eqn:Hattach; [|done].
  apply Attach_Return in Hattach as [Hparray Htype].
  unfold GetCount. rewrite collect_strings_spec by done. simpl.
  intros [= <-]. exists sa. repeat split; try done.
  - apply decoded_non_null_length.
  - intros ws ->. apply decoded_non_null_all.
Qed.

Lemma ConvertVariant_vector_string_inversion_witness :
  ∃ sa,
    vt (VARIANT_bstr_array [Some "a"; None; Some "b"]%string) = Z.lor VT_ARRAY VT_BSTR ∧
    parray (VARIANT_bstr_array [Some "a"; None; Some "b"]%string) = Some sa ∧
    sa_vartype sa = VT_BSTR ∧
    (length ["a"; "b"]%string + length (List.filter is_null_BSTR (pvData sa)))%nat =
      length (pvData sa) ∧
    (∀ ws, pvData sa = Some <$> ws → ["a"; "b"]%string = narrow <$> ws).
Proof.
  apply (ConvertVariant_vector_string_inversion narrow
           (VARIANT_bstr_array [Some "a"; None; Some "b"]%string)
           ["a"; "b"]%string).
  reflexivity.
Defined.

(** *** String arrays with a lower bound *)

Section LowerBoundFacts.
Variable decode : list wchar_t → string.
Variable lLbound : SAFEARRAY → Z.

(** For a zero-based array the bounds check never fires and the loop is the
    one over [GetAt]. *)
Lemma collect_strings_lb_zero sa todo : ∀ i acc,
  lLbound sa = 0 → (i + todo)%nat = length (pvData sa) →
  collect_strings_lb decode lLbound sa todo i acc =
    collect_strings decode sa todo i acc.
Proof.
  induction todo as [|todo IH]; intros i acc Hzero Hlen; simpl; [done|].
  unfold GetAt_lb, GetAt, GetLowerBound, GetUpperBound, GetCount.
  rewrite Hzero, Z.sub_0_r, Nat2Z.id.
  rewrite (bool_decide_eq_false_2 (Z.of_nat i < 0)) by lia.
  rewrite (bool_decide_eq_false_2 (0 + Z.of_nat (length (pvData sa)) - 1 < Z.of_nat i))
    by lia.
  simpl. destruct (pvData sa !! i) as [bstr|]; simpl; [|done].
  apply IH; [done|lia].
Qed.

(** If one of the indices the loop still has to visit is outside the
    bounds, the loop throws. *)
Lemma collect_strings_lb_throws sa todo : ∀ i acc j,
  (i ≤ j < i + todo)%nat →
  Z.of_nat j < GetLowerBound lLbound sa ∨ GetUpperBound lLbound sa < Z.of_nat j →
  collect_strings_lb decode lLbound sa todo i acc = Throw (CAtlException E_INVALIDARG).
Proof.
  induction todo as [|todo IH]; intros i acc j Hj Hout; simpl; [lia|].
  unfold GetAt_lb.
  destruct (bool_decide (Z.of_nat i < GetLowerBound lLbound sa)
            || bool_decide (GetUpperBound lLbound sa < Z.of_nat i)) eqn:Hcheck;
    simpl; [done|].
  destruct (pvData sa !! _) as [bstr|]; simpl; [|done].
  apply orb_false_elim in Hcheck as [Hlow%bool_decide_eq_false Hhigh%bool_decide_eq_false].
  apply (IH (S i) _ j); [lia|done].
Qed.

Lemma ConvertVariant_vector_string_lb_cases (v : CComVariant) (sa : SAFEARRAY) :
  vt v = Z.lor VT_ARRAY VT_BSTR → Attach (parray v) = Return sa →
  ConvertVariant_vector_string_lb decode lLbound v =
    if bool_decide (lLbound sa = 0 ∨ pvData sa = [])
    then Return (Some (decoded_non_null decode (pvData sa)))
    else Throw (CAtlException E_INVALIDARG).
Proof.
  intros Hvt Hattach. unfold ConvertVariant_vector_string_lb.
  rewrite bool_decide_eq_false_2 by tauto. rewrite Hattach. unfold GetCount.
  case_bool_decide as Hcase.
  - destruct Hcase as [Hzero|Hnil].
    + rewrite collect_strings_lb_zero, collect_strings_spec by done. done.
    + rewrite Hnil. done.
  - assert (lLbound sa ≠ 0 ∧ (0 < length (pvData sa))%nat) as [Hlb Hlen].
    { split; [tauto|]. destruct (pvData sa); [tauto|simpl; lia]. }
    destruct (decide (0 < lLbound sa)) as [Hpos|Hneg].
    + rewrite (collect_strings_lb_throws sa _ 0 [] 0%nat); [done|lia|].
      left. unfold GetLowerBound. lia.
    + rewrite (collect_strings_lb_throws sa _ 0 [] (length (pvData sa) - 1)%nat);
        [done|lia|].
      right. unfold GetUpperBound, GetCount. lia.
Qed.
End LowerBoundFacts.

(** X17.  With the bounds check of [GetAt] taken into account, an
    exception leaves [GetProperty<T>] in exactly one case: [T] is
    [std::vector<std::string>], the lookup succeeds with a string array that
    [Attach] accepts, and the array has a lower bound other than zero and at
    least one element; the exception is then the [CAtlException] of [GetAt],
    which is thrown outside the [try].  For every other target type, object
    and name [GetProperty] returns, and on zero-based arrays it is the
    [GetProperty] of the section on the property object. *)
Theorem GetProperty_throws_iff (decode : list wchar_t → string)
    (lLbound : SAFEARRAY → Z) (T : target) (self : Object.t) (name : string) :
  ((∃ ex, GetProperty_lb decode lLbound T self name = Throw ex) ↔
     T = T_vector_string ∧
     FAILED (Get (Object.object_ self) name).1 = false ∧
     vt (Get (Object.object_ self) name).2 = Z.lor VT_ARRAY VT_BSTR ∧
     ∃ sa, parray (Get (Object.object_ self) name).2 = Some sa ∧
           sa_vartype sa = VT_BSTR ∧ lLbound sa ≠ 0 ∧ pvData sa ≠ []) ∧
  (∀ ex, GetProperty_lb decode lLbound T self name = Throw ex →
         ex = CAtlException E_INVALIDARG) ∧
  ((∀ sa, lLbound sa = 0) →
     GetProperty_lb decode lLbound T self name = Object.GetProperty decode T self name).
Proof.
  unfold GetProperty_lb, Object.GetProperty.
  destruct (Get (Object.object_ self) name) as [result variant]. simpl.
  destruct (FAILED result) eqn:Hfailed.
  { split; [split; [intros [? [=]] | intros (_ & [=] & _)]
          | split; [intros ? [=] | done]]. }
  destruct T as [| | |T cast]; simpl.
  - split; [split; [intros [? [=]] | intros ([=] & _)]
          | split; [intros ? [=] | done]].
  - unfold ConvertVariant_string.
    split; [split; [intros [? [=]] | intros ([=] & _)]
          | split; [intros ? [=] | done]].
  - unfold ConvertVariant_vector_string_lb at 3.
    destruct (bool_decide_reflect (vt variant ≠ Z.lor VT_ARRAY VT_BSTR)) as [Hvt|Hvt].
    { unfold ConvertVariant_vector_string_lb, ConvertVariant_vector_string.
      rewrite !bool_decide_eq_true_2 by done.
      split; [split; [intros [? [=]] | intros (_ & _ & ? & _); done]
            | split; [intros ? [=] | done]]. }
    apply dec_stable in Hvt.
    destruct (Attach (parray variant)) as [sa|ex] eqn:Hattach.
    + rewrite (ConvertVariant_vector_string_lb_cases decode lLbound variant sa Hvt Hattach).
      pose proof (proj1 (Attach_Return _ _) Hattach) as [Hparray Htype].
      case_bool_decide as Hcase.
      * split; [split|split].
        -- intros [? [=]].
        -- intros (_ & _ & _ & sa' & Hparray' & _ & Hlb & Hnil).
           rewrite Hparray in Hparray'. injection Hparray' as <-. tauto.
        -- intros ? [=].
        -- intros Hzero. unfold ConvertVariant_vector_string.
           rewrite bool_decide_eq_false_2 by tauto. rewrite Hattach.
           unfold GetCount.
           by rewrite (collect_strings_lb_zero decode lLbound sa _ 0%nat []
                         (Hzero sa) eq_refl).
      * split; [split|split].
        -- intros _. repeat split; try done. exists sa. repeat split; try done; tauto.
        -- eauto.
        -- by intros ? [= <-].
        -- intros Hzero. specialize (Hzero sa). tauto.
    + unfold ConvertVariant_vector_string_lb, ConvertVariant_vector_string.
      rewrite !bool_decide_eq_false_2 by tauto. rewrite Hattach.
      split; [split|split]; try done.
      * intros [? [=]].
      * intros (_ & _ & _ & sa & Hparray & Htype & _).
        assert (Attach (parray variant) = Return sa) as Hreturn
          by by apply Attach_Return.
        congruence.
  - unfold ConvertVariant_generic, try_catch.
    destruct (cast variant) as [x|[]]; simpl;
      (split; [split; [intros [? [=]] | intros ([=] & _)]
             | split; [intros ? [=] | done]]).
Qed.

Lemma GetProperty_throws_iff_witness :
  GetProperty_lb narrow (fun _ => 1) T_vector_string
      (Object.Build 7%nat record_with_names) "Names" =
    Throw (CAtlException E_INVALIDARG) ∧
  GetProperty_lb narrow (fun _ => 0) T_vector_string
      (Object.Build 7%nat record_with_names) "Names" =
    Return (Some ["a"; "b"]%string).
Proof.
  split.
  - destruct (proj2 (proj1 (GetProperty_throws_iff narrow (fun _ => 1)
                              T_vector_string
                              (Object.Build 7%nat record_with_names) "Names")))
      as [ex Hthrow].
    + split; [reflexivity|]. split; [reflexivity|]. split; [reflexivity|].
      eexists. split; [reflexivity|]. split; [reflexivity|]. split; discriminate.
    + rewrite Hthrow. f_equal.
      exact (proj1 (proj2 (GetProperty_throws_iff narrow (fun _ => 1)
                             T_vector_string
                             (Object.Build 7%nat record_with_names) "Names"))
               ex Hthrow).
  - rewrite (proj2 (proj2 (GetProperty_throws_iff narrow (fun _ => 0)
                             T_vector_string
                             (Object.Build 7%nat record_with_names) "Names"))
               (fun _ => eq_refl)).
    reflexivity.
Defined.

(** X18.  [GetProperty<std::string>] gives a string exactly when the lookup
    succeeds with a non-null string value, and then the decoded value; in
    particular a property that holds a number is not converted to text. *)
Theorem GetProperty_string_Some (decode : list wchar_t → string) (self : Object.t)
    (name : string) (s : string) :
  Object.GetProperty decode T_string self name = Return (Some s) ↔
  FAILED (Get (Object.object_ self) name).1 = false ∧
  vt (Get (Object.object_ self) name).2 = VT_BSTR ∧
  ∃ w, bstrVal (Get (Object.object_ self) name).2 = Some w ∧ s = decode w.
Proof.
  unfold Object.GetProperty.
  destruct (Get (Object.object_ self) name) as [result variant]. simpl.
  destruct (FAILED result); simpl.
  - split; [done | by intros [? _]].
  - unfold ConvertVariant_string. rewrite <- ConvertBstrToString_Some.
    split; [intros [= ->] | intros [_ ->]]; done.
Qed.

Lemma GetProperty_string_Some_witness :
  Object.GetProperty narrow T_string (Object.Build 7%nat (disk "C:")) "DeviceID" =
    Return (Some "C:"%string) ∧
  Object.GetProperty narrow T_string (Object.Build 7%nat (disk "C:")) "DriveType" ≠
    Return (Some "3"%string).
Proof.
  split.
  - apply (proj2 (GetProperty_string_Some narrow (Object.Build 7%nat (disk "C:"))
                    "DeviceID" "C:")).
    split; [reflexivity|]. split; [reflexivity|]. by exists (wide "C:").
  - intros H.
    apply (proj1 (GetProperty_string_Some narrow (Object.Build 7%nat (disk "C:"))
                    "DriveType" "3")) in H.
    destruct H as (_ & Hvt & _). vm_compute in Hvt. discriminate.
Defined.
